(** * Ring buffer (src/rb.c): shallow embedding and verified properties

    The C file implements a byte ring buffer over a power-of-two sized
    store, with two free-running [uint32_t] cursors ([in], [out]) that are
    reduced to physical offsets by masking.  The embedding keeps the shape of
    the C code: every [uint32_t] value is a [Z] whose wrap-around is written
    out with [u32], the struct is a record, the store is a [list byte], and
    every function that writes through a pointer returns the new object. *)

From Stdlib Require Import ZArith List Lia Bool.
From Stdlib Require Import Init.Byte.
From Stdlib Require Strings.Byte.
From Stdlib Require Import Permutation.
Import ListNotations.
Local Open Scope Z_scope.

(** ** 32-bit machine arithmetic *)

Module U32.

Definition modulus : Z := 2 ^ 32.

(** Conversion to [uint32_t]: reduction modulo 2^32. *)
Definition u32 (x : Z) : Z := x mod modulus.

(** Conversion to [int] (two's complement, 32 bits). *)
Definition s32 (x : Z) : Z :=
  let y := u32 x in if y <? 2 ^ 31 then y else y - modulus.

(** The values a [uint32_t] object can hold. *)
Definition is_u32 (x : Z) : Prop := 0 <= x < modulus.

(** [#define min(a, b) ((a) < (b)? (a): (b))] *)
Definition min (a b : Z) : Z := if a <? b then a else b.

End U32.
Import U32.

(** ** Memory blocks *)

Module Mem.

(** [memcpy(dst + doff, src + soff, n)] on blocks held as lists; the result
    is the new content of the destination block.  ISO C gives the call a
    meaning only when both byte ranges lie inside their blocks; that is the
    case at every call the theorems below reason about (lemma
    [memcpy_nth_error] states the in-range behaviour index by index). *)
Definition memcpy (dst : list byte) (doff : Z) (src : list byte) (soff n : Z)
  : list byte :=
  firstn (Z.to_nat doff) dst
    ++ firstn (Z.to_nat n) (skipn (Z.to_nat soff) src)
    ++ skipn (Z.to_nat (doff + n)) dst.

End Mem.
Import Mem.

(** ** The struct *)

(** [struct ringbuffer]; the fields are [r->in], [r->out], [r->mask],
    [r->size], [r->esize] and [r->data]. *)
Record ringbuffer : Type := mk_ringbuffer {
  r_in    : Z;
  r_out   : Z;
  r_mask  : Z;
  r_size  : Z;
  r_esize : Z;
  r_data  : list byte
}.

Definition set_in (r : ringbuffer) (v : Z) : ringbuffer :=
  mk_ringbuffer v (r_out r) (r_mask r) (r_size r) (r_esize r) (r_data r).
Definition set_out (r : ringbuffer) (v : Z) : ringbuffer :=
  mk_ringbuffer (r_in r) v (r_mask r) (r_size r) (r_esize r) (r_data r).
Definition set_mask (r : ringbuffer) (v : Z) : ringbuffer :=
  mk_ringbuffer (r_in r) (r_out r) v (r_size r) (r_esize r) (r_data r).
Definition set_size (r : ringbuffer) (v : Z) : ringbuffer :=
  mk_ringbuffer (r_in r) (r_out r) (r_mask r) v (r_esize r) (r_data r).
Definition set_esize (r : ringbuffer) (v : Z) : ringbuffer :=
  mk_ringbuffer (r_in r) (r_out r) (r_mask r) (r_size r) v (r_data r).
Definition set_data (r : ringbuffer) (v : list byte) : ringbuffer :=
  mk_ringbuffer (r_in r) (r_out r) (r_mask r) (r_size r) (r_esize r) v.

(** ** Build configuration

    rb.c is compiled in one of two ways.  Without [__DYNAMIC_MALLOC__] the
    store is the in-struct array [data[RB_BUF_LEN]]; the macro [RB_BUF_LEN]
    comes from rb.h and is a parameter here.  With [__DYNAMIC_MALLOC__] the
    store comes from [malloc]; the allocator is a parameter too: [malloc_ok n]
    tells whether [malloc(n)] returns a block (not NULL), and [fresh] gives
    the indeterminate content of the block, byte by byte. *)
Inductive backing : Type :=
| static_backing (RB_BUF_LEN : Z)
| dynamic_malloc (malloc_ok : Z -> bool) (fresh : nat -> byte).

(** ** Private functions *)

(** The [for (i = 31; i >= 0; i--)] loop of [roundup_pow_of_two], entered
    with [i = k - 1]: the result is the value of [mask] when the loop is
    left ([mask0] is its value before the first assignment). *)
Fixpoint roundup_scan (k : nat) (len mask0 : Z) : Z :=
  match k with
  | O => mask0
  | S i =>
      let mask := s32 (Z.shiftl 1 (Z.of_nat i)) in
      if Z.land len (u32 mask) =? u32 mask then mask
      else roundup_scan i len mask
  end.

(** [roundup_pow_of_two]; [i] and [mask] are [int]s.  [1 << 31] and a
    left shift that leaves the range of [int] are taken with their
    two's-complement result. *)
Definition roundup_pow_of_two (len : Z) : Z :=
  if Z.land len (u32 (len - 1)) =? 0 then len
  else
    let mask := roundup_scan 32 len 0 in
    u32 (s32 (Z.shiftl mask 1)).

(** ** Public functions *)

(** [rb_init]; a NULL [r] is [None].  The result is the returned [int] and
    the object [r] points to afterwards. *)
Definition rb_init (bk : backing) (r : option ringbuffer) (len esize : Z)
  : Z * option ringbuffer :=
  match r with
  | None => (-1, None)
  | Some r =>
      if (len =? 0) || (esize =? 0) then (-1, Some r)
      else
        let r := set_esize r esize in
        let r := set_out r 0 in
        let r := set_in r 0 in
        match bk with
        | dynamic_malloc malloc_ok fresh =>
            let r := set_size r (roundup_pow_of_two (u32 (esize * len))) in
            if malloc_ok (r_size r) then
              let r := set_data r (map fresh (seq 0 (Z.to_nat (r_size r)))) in
              (0, Some (set_mask r (u32 (r_size r - 1))))
            else (-1, Some (set_data r []))
        | static_backing RB_BUF_LEN =>
            let r := set_size r (u32 (RB_BUF_LEN / esize)) in
            if negb (Z.land (r_size r) (u32 (r_size r - 1)) =? 0)
            then (-1, Some r)
            else (0, Some (set_mask r (u32 (r_size r - 1))))
        end
  end.

(** [rb_size] *)
Definition rb_size (r : ringbuffer) : Z := r_size r.

(** [rb_avail]: space used in ringbuffer *)
Definition rb_avail (r : ringbuffer) : Z := u32 (r_in r - r_out r).

(** [rb_unused]: space left in ringbuffer *)
Definition rb_unused (r : ringbuffer) : Z :=
  u32 (r_size r - u32 (r_in r - r_out r)).

(** [rb_is_empty] *)
Definition rb_is_empty (r : ringbuffer) : Z :=
  if r_in r =? r_out r then 1 else 0.

(** [rb_is_full] *)
Definition rb_is_full (r : ringbuffer) : Z :=
  if rb_avail r >? r_mask r then 1 else 0.

(** [rb_in]: the returned count and the ring buffer afterwards. *)
Definition rb_in (r : ringbuffer) (buf : list byte) (len : Z)
  : Z * ringbuffer :=
  let left := rb_unused r in
  let len := min len left in
  let l := min len (u32 (r_size r - Z.land (r_in r) (r_mask r))) in
  let data := memcpy (r_data r) (Z.land (r_in r) (r_mask r)) buf 0 l in
  let data := memcpy data 0 buf l (u32 (len - l)) in
  let r := set_data r data in
  let r := set_in r (u32 (r_in r + len)) in
  (len, r).

(** [rb_out]: the returned count, the ring buffer afterwards, and the
    caller's block [buf] afterwards. *)
Definition rb_out (r : ringbuffer) (buf : list byte) (len : Z)
  : Z * ringbuffer * list byte :=
  let avail := rb_avail r in
  let len := min len avail in
  let l := min len (u32 (r_size r - Z.land (r_out r) (r_mask r))) in
  let buf := memcpy buf 0 (r_data r) (Z.land (r_out r) (r_mask r)) l in
  let buf := memcpy buf l (r_data r) 0 (u32 (len - l)) in
  let r := set_out r (u32 (r_out r + len)) in
  (len, r, buf).

(** [rb_peek] returns [void]; the result is the ring buffer afterwards (the
    function assigns to none of its fields) and the caller's block. *)
Definition rb_peek (r : ringbuffer) (buf : list byte) (len : Z)
  : ringbuffer * list byte :=
  let avail := rb_avail r in
  let len := min len avail in
  let l := min len (u32 (rb_size r - Z.land (r_out r) (r_mask r))) in
  let buf := memcpy buf 0 (r_data r) (Z.land (r_out r) (r_mask r)) l in
  let buf := memcpy buf l (r_data r) 0 (u32 (len - l)) in
  (r, buf).

(** ** Calls and reachable states *)

(** A call the producer or the consumer makes on the buffer: [rb_in],
    [rb_out] or [rb_peek], with the caller's block and the requested
    length. *)
Inductive call : Type :=
| Write (buf : list byte) (len : Z)
| Read (buf : list byte) (len : Z)
| Peek (buf : list byte) (len : Z).

(** What the C caller owes: [len] is a [uint32_t], and the bytes the
    function will transfer lie inside the caller's block. *)
Definition call_ok (r : ringbuffer) (c : call) : Prop :=
  match c with
  | Write buf len =>
      is_u32 len /\ min len (rb_unused r) <= Z.of_nat (length buf)
  | Read buf len | Peek buf len =>
      is_u32 len /\ min len (rb_avail r) <= Z.of_nat (length buf)
  end.

(** The ring buffer after a call. *)
Definition exec (r : ringbuffer) (c : call) : ringbuffer :=
  match c with
  | Write buf len => snd (rb_in r buf len)
  | Read buf len => snd (fst (rb_out r buf len))
  | Peek buf len => fst (rb_peek r buf len)
  end.

(** The object handed to [rb_init] has the layout of the struct: with the
    static store, [data] is an array of [RB_BUF_LEN] bytes. *)
Definition struct_ok (bk : backing) (r : ringbuffer) : Prop :=
  match bk with
  | static_backing RB_BUF_LEN => Z.of_nat (length (r_data r)) = RB_BUF_LEN
  | dynamic_malloc _ _ => True
  end.

(** The states of a successfully constructed buffer: the one [rb_init]
    leaves when it returns 0, and every state a call leads to. *)
Inductive reachable (bk : backing) : ringbuffer -> Prop :=
| reach_init (r0 : ringbuffer) (len esize : Z) (r : ringbuffer) :
    struct_ok bk r0 -> is_u32 len -> is_u32 esize ->
    rb_init bk (Some r0) len esize = (0, Some r) ->
    reachable bk r
| reach_call (r : ringbuffer) (c : call) :
    reachable bk r -> call_ok r c -> reachable bk (exec r c).

(** A sequence of calls, run from [r] with the running totals of the bytes
    [rb_in] reported written ([W]) and [rb_out] reported read ([R]); the
    totals are mathematical integers, they do not wrap. *)
Fixpoint run (r : ringbuffer) (cs : list call) (W R : Z)
  : ringbuffer * Z * Z :=
  match cs with
  | [] => (r, W, R)
  | Write buf len :: cs =>
      let '(n, r') := rb_in r buf len in run r' cs (W + n) R
  | Read buf len :: cs =>
      let '(n, r', _) := rb_out r buf len in run r' cs W (R + n)
  | Peek buf len :: cs =>
      let '(r', _) := rb_peek r buf len in run r' cs W R
  end.

(** Every call of the sequence meets [call_ok] in the state it is made in. *)
Fixpoint calls_ok (r : ringbuffer) (cs : list call) : Prop :=
  match cs with
  | [] => True
  | c :: cs => call_ok r c /\ calls_ok (exec r c) cs
  end.

(** ** Invariant and abstraction *)

Definition is_pow2 (n : Z) : Prop := exists k, 0 <= k /\ n = 2 ^ k.

(** What holds of the struct in every reachable state.  [r_size r = 0] is
    there because [rb_init] lets it through (see [degenerate_init]). *)
Record rb_inv (r : ringbuffer) : Prop := mk_rb_inv {
  inv_size  : r_size r = 0 \/ exists k, 0 <= k <= 31 /\ r_size r = 2 ^ k;
  inv_mask  : r_mask r = u32 (r_size r - 1);
  inv_in    : is_u32 (r_in r);
  inv_out   : is_u32 (r_out r);
  inv_avail : rb_avail r <= r_size r;
  inv_data  : r_size r <= Z.of_nat (length (r_data r))
}.

(** [a] bytes of the ring [d[0..s)] read from offset [q] on, going round at
    [s]. *)
Definition window (d : list byte) (s q a : nat) : list byte :=
  firstn a (skipn q (firstn s d ++ firstn s d)).

(** The queue the ring buffer holds: its [rb_avail r] unread bytes, oldest
    first. *)
Definition contents (r : ringbuffer) : list byte :=
  window (r_data r) (Z.to_nat (r_size r))
         (Z.to_nat (Z.land (r_out r) (r_mask r)))
         (Z.to_nat (rb_avail r)).

(** A producer writes the byte sequence [S]; the consumer then takes the
    [rb_avail r] bytes that were queued before the write (into [old]) and
    reads [length S] bytes into [buf].  The result is the three returned
    counts and [buf] afterwards. *)
Definition write_drain_read (r : ringbuffer) (S old buf : list byte)
  : Z * Z * Z * list byte :=
  let '(w, r1) := rb_in r S (Z.of_nat (length S)) in
  let '(d, r2, _) := rb_out r1 old (rb_avail r) in
  let '(n, _, buf') := rb_out r2 buf (Z.of_nat (length S)) in
  (w, d, n, buf').

(** ** Concrete buffers *)

(** The scenario of the specification: capacity 8, element size 1. *)
Module Scenario.

Definition blank : ringbuffer := mk_ringbuffer 0 0 0 0 0 (repeat x00 8).
Definition bk8 : backing := static_backing 8.

Definition r0 : ringbuffer := mk_ringbuffer 0 0 7 8 1 (repeat x00 8).

Definition r1 := rb_in r0 [x01; x02; x03; x04; x05; x06] 6.
Definition r2 := rb_in (snd r1) [x07; x08; x09] 3.
Definition r3 := rb_out (snd r2) (repeat x00 5) 5.
Definition r4 := rb_in (snd (fst r3)) [x09; x0a] 2.
Definition r5 := rb_out (snd r4) (repeat x00 5) 5.

(** After [r1], four bytes are read: the cursors are at 6 and 4, and a
    write of more than two bytes goes round the end of the store. *)
Definition rs := rb_out (snd r1) (repeat x00 4) 4.

(** After [rs], six bytes that hold the marker [55 aa] are written: they
    lie round the end of the store, and two stale bytes precede them in
    the queue. *)
Definition rm := rb_in (snd (fst rs)) [x01; x55; x55; xaa; x09; x0a] 6.

End Scenario.

(** A static store of 256 bytes asked for elements of 257 bytes. *)
Module Degenerate.

Definition bk256 : backing := static_backing 256.
Definition blank : ringbuffer := mk_ringbuffer 0 0 0 0 0 (repeat x00 256).
Definition r0 : ringbuffer :=
  mk_ringbuffer 0 0 4294967295 0 257 (repeat x00 256).

End Degenerate.

(** Cursors about to pass 2^32: capacity 8, [in = out = 2^32 - 4]. *)
Module Wrapping.

Definition r0 : ringbuffer :=
  mk_ringbuffer 4294967292 4294967292 7 8 1 (repeat x00 8).

Definition calls : list call :=
  [ Write [x01; x02; x03; x04; x05; x06] 6;
    Read (repeat x00 2) 2;
    Write [x07; x08; x09; x0a; x0b] 5;
    Peek (repeat x00 8) 8;
    Read (repeat x00 3) 3 ].

End Wrapping.

(** The dynamic build with an allocator that never returns NULL, not even
    for a request of 0 bytes (as glibc's [malloc]); the bytes of a fresh
    block are taken to be 0. *)
Module Dynamic.

Definition bk : backing := dynamic_malloc (fun _ => true) (fun _ => x00).
Definition blank : ringbuffer := mk_ringbuffer 0 0 0 0 0 [].

End Dynamic.

(** ** The other functions of rb.c *)

(** [rb_deinit]; a NULL [r] is [None].  In the dynamic build the store is
    handed to [free] and [r->data] becomes NULL, which is the empty block
    here, as on the failure path of [rb_init]; the heap itself is not part
    of the model. *)
Definition rb_deinit (bk : backing) (r : option ringbuffer)
  : option ringbuffer :=
  match r with
  | None => None
  | Some r =>
      let r := set_out r 0 in
      let r := set_in r 0 in
      match bk with
      | dynamic_malloc _ _ => Some (set_data r [])
      | static_backing _ => Some r
      end
  end.

(** The value of an [unsigned char]. *)
Definition byte_val (b : byte) : Z := Z.of_N (Byte.to_N b).

(** [check_sum] of the test harness; a NULL [buffer] is [None].  The loop
    adds the bytes [buffer[0 .. size)] into the [unsigned int sum], one
    after the other. *)
Definition check_sum (buffer : option (list byte)) (size : Z) : Z :=
  match buffer with
  | None => 0
  | Some b =>
      if size =? 0 then 0
      else fold_left (fun sum x => u32 (sum + byte_val x))
                     (firstn (Z.to_nat size) b) 0
  end.

(** [sync_buf[i]] *)
Definition byte_at (buf : list byte) (i : Z) : byte :=
  nth (Z.to_nat i) buf x00.

(** The search loop of [phtread_out],
    [for (i = 0; i < avail_bytes - 1; i++)
       if (sync_buf[i] == 0x55 && sync_buf[i + 1] == 0xaa) break;],
    entered with the given [i]; the result is [i] when the loop is left.
    [fuel] bounds the number of iterations. *)
Fixpoint sync_scan (fuel : nat) (sync_buf : list byte) (i avail_bytes : Z)
  : Z :=
  match fuel with
  | O => i
  | S fuel =>
      if i <? u32 (avail_bytes - 1) then
        if Byte.eqb (byte_at sync_buf i) x55
           && Byte.eqb (byte_at sync_buf (i + 1)) xaa
        then i
        else sync_scan fuel sync_buf (i + 1) avail_bytes
      else i
  end.

(** The loop from [i = 0]; it makes at most [avail_bytes - 1] iterations. *)
Definition find_sync (sync_buf : list byte) (avail_bytes : Z) : Z :=
  sync_scan (Z.to_nat (u32 (avail_bytes - 1))) sync_buf 0 avail_bytes.

(** The start of one round of the consumer [phtread_out], once
    [rb_avail(r)] is at least the size of a header, with no producer call in
    between: peek at everything, look for the marker, and either discard
    everything (no marker: [false]) or discard what precedes the marker
    ([true]).  The result also holds the ring buffer and [sync_buf]
    afterwards. *)
Definition resync (r : ringbuffer) (sync_buf : list byte)
  : bool * ringbuffer * list byte :=
  let avail_bytes := rb_avail r in
  let '(r, sync_buf) := rb_peek r sync_buf avail_bytes in
  let i := find_sync sync_buf avail_bytes in
  if i =? u32 (avail_bytes - 1) then
    let '(_, r, sync_buf) := rb_out r sync_buf avail_bytes in
    (false, r, sync_buf)
  else if negb (i =? 0) then
    let '(_, r, sync_buf) := rb_out r sync_buf i in
    (true, r, sync_buf)
  else (true, r, sync_buf).

(** A sequence of calls, run from [r], with the bytes [rb_in] took from the
    producer's blocks and the bytes [rb_out] put into the consumer's
    blocks, both in the order of the calls. *)
Fixpoint run_io (r : ringbuffer) (cs : list call)
  : ringbuffer * list byte * list byte :=
  match cs with
  | [] => (r, [], [])
  | Write buf len :: cs =>
      let '(n, r1) := rb_in r buf len in
      let '(r2, w, o) := run_io r1 cs in
      (r2, firstn (Z.to_nat n) buf ++ w, o)
  | Read buf len :: cs =>
      let '(n, r1, buf') := rb_out r buf len in
      let '(r2, w, o) := run_io r1 cs in
      (r2, w, firstn (Z.to_nat n) buf' ++ o)
  | Peek buf len :: cs =>
      let '(r1, _) := rb_peek r buf len in run_io r1 cs
  end.

(** The sum of the values of the bytes of a list, as an integer. *)
Definition byte_total (l : list byte) : Z :=
  fold_right (fun x acc => byte_val x + acc) 0 l.

(** The marker [55 aa] starts at index [i] of [l]. *)
Definition sync_at (l : list byte) (i : nat) : Prop :=
  nth_error l i = Some x55 /\ nth_error l (S i) = Some xaa.

(** * Properties *)

(** ** The model runs the scenario of the specification *)

Example scenario_init :
  rb_init Scenario.bk8 (Some Scenario.blank) 8 1 = (0, Some Scenario.r0).
Proof. reflexivity. Qed.

Example scenario_run :
  fst Scenario.r1 = 6 /\ rb_avail (snd Scenario.r1) = 6
  /\ fst Scenario.r2 = 2 /\ rb_is_full (snd Scenario.r2) = 1
  /\ Scenario.r3
     = (5, mk_ringbuffer 8 5 7 8 1 [x01; x02; x03; x04; x05; x06; x07; x08],
        [x01; x02; x03; x04; x05])
  /\ rb_avail (snd (fst Scenario.r3)) = 3
  /\ Scenario.r4
     = (2, mk_ringbuffer 10 5 7 8 1 [x09; x0a; x03; x04; x05; x06; x07; x08])
  /\ snd Scenario.r5 = [x06; x07; x08; x09; x0a].
Proof. vm_compute. repeat split; reflexivity. Qed.

(** ** Machine arithmetic *)

Lemma u32_range x : is_u32 (u32 x).
Proof. unfold is_u32, u32, modulus. apply Z.mod_pos_bound. lia. Qed.

Lemma u32_id x : is_u32 x -> u32 x = x.
Proof. unfold is_u32, u32. intros. apply Z.mod_small. lia. Qed.

Lemma min_spec a b : min a b = Z.min a b.
Proof. unfold min. destruct (Z.ltb_spec a b); lia. Qed.

Lemma u32_add_sub a b n :
  0 <= n -> u32 (a - b) + n < modulus ->
  u32 (u32 (a + n) - b) = u32 (a - b) + n.
Proof.
  intros Hn Hlt. unfold u32 in *.
  rewrite Zminus_mod_idemp_l.
  replace (a + n - b) with ((a - b) + n) by lia.
  rewrite <- Zplus_mod_idemp_l.
  apply Z.mod_small.
  pose proof (Z.mod_pos_bound (a - b) modulus). unfold modulus in *. lia.
Qed.

Lemma u32_sub_add a b n :
  0 <= n <= u32 (a - b) ->
  u32 (a - u32 (b + n)) = u32 (a - b) - n.
Proof.
  intros Hn. unfold u32 in *.
  rewrite Zminus_mod_idemp_r.
  replace (a - (b + n)) with ((a - b) - n) by lia.
  rewrite <- Zminus_mod_idemp_l.
  apply Z.mod_small.
  pose proof (Z.mod_pos_bound (a - b) modulus). unfold modulus in *. lia.
Qed.

Lemma pow2_le_modulus k : 0 <= k <= 31 -> 0 < 2 ^ k /\ 2 * 2 ^ k <= modulus.
Proof.
  intros Hk. unfold modulus. split; [apply Z.pow_pos_nonneg; lia|].
  replace (2 * 2 ^ k) with (2 ^ (k + 1)) by (rewrite Z.pow_add_r; lia).
  apply Z.pow_le_mono_r; lia.
Qed.

Lemma mod_pow2_u32 k x : 0 <= k <= 31 -> u32 x mod 2 ^ k = x mod 2 ^ k.
Proof.
  intros Hk. unfold u32, modulus. apply Z.mod_mod_divide.
  exists (2 ^ (32 - k)). rewrite <- Z.pow_add_r by lia. f_equal. lia.
Qed.

(** The masking step [c & r->mask] when the size is 2^k. *)
Lemma land_mask_pow2 k c :
  0 <= k <= 31 -> Z.land c (u32 (2 ^ k - 1)) = c mod 2 ^ k.
Proof.
  intros Hk. pose proof (pow2_le_modulus k Hk).
  rewrite u32_id by (unfold is_u32; lia).
  replace (2 ^ k - 1) with (Z.ones k) by (rewrite Z.ones_equiv; lia).
  apply Z.land_ones. lia.
Qed.

(** The test [(x & (x - 1)) == 0] lets through 0 and the powers of two. *)
Lemma land_pred_zero x :
  0 < x -> Z.land x (x - 1) = 0 -> exists k, 0 <= k /\ x = 2 ^ k.
Proof.
  intros Hx Hland. exists (Z.log2 x).
  pose proof (Z.log2_nonneg x) as Hk.
  pose proof (Z.log2_spec x Hx) as [Hlo Hhi].
  split; [exact Hk|].
  destruct (Z.eq_dec x (2 ^ Z.log2 x)) as [E|NE]; [exact E|exfalso].
  assert (Hb1 : Z.testbit x (Z.log2 x) = true) by (apply Z.bit_log2; lia).
  assert (Hl : Z.log2 (x - 1) = Z.log2 x).
  { apply Z.log2_unique; [exact Hk|].
    rewrite Z.pow_succ_r in Hhi by exact Hk.
    replace (Z.log2 x + 1) with (Z.succ (Z.log2 x)) by lia.
    rewrite Z.pow_succ_r by exact Hk. lia. }
  assert (Hb2 : Z.testbit (x - 1) (Z.log2 x) = true).
  { rewrite <- Hl. apply Z.bit_log2. lia. }
  assert (Hb : Z.testbit (Z.land x (x - 1)) (Z.log2 x) = true).
  { rewrite Z.land_spec, Hb1, Hb2. reflexivity. }
  rewrite Hland, Z.bits_0 in Hb. discriminate.
Qed.

Lemma pow2_land_pred k : 0 <= k -> Z.land (2 ^ k) (2 ^ k - 1) = 0.
Proof.
  intros Hk.
  replace (2 ^ k - 1) with (Z.ones k) by (rewrite Z.ones_equiv; lia).
  rewrite Z.land_ones by lia. apply Z.mod_same.
  pose proof (Z.pow_pos_nonneg 2 k). lia.
Qed.

(** ** Memory blocks *)

Lemma memcpy_length dst doff src soff n :
  0 <= doff -> 0 <= soff -> 0 <= n ->
  doff + n <= Z.of_nat (length dst) -> soff + n <= Z.of_nat (length src) ->
  length (memcpy dst doff src soff n) = length dst.
Proof.
  intros. unfold memcpy.
  rewrite !length_app, !length_firstn, !length_skipn. lia.
Qed.

(** A copy of no byte leaves the destination as it is, whatever the offsets. *)
Lemma memcpy_zero dst doff src soff : memcpy dst doff src soff 0 = dst.
Proof.
  unfold memcpy. rewrite Z.add_0_r. simpl. apply firstn_skipn.
Qed.

(** In range, [memcpy] replaces the bytes [doff .. doff + n) of the
    destination by the bytes [soff .. soff + n) of the source. *)
Lemma memcpy_nth_error dst doff src soff n (j : nat) :
  0 <= doff -> 0 <= soff -> 0 <= n ->
  doff + n <= Z.of_nat (length dst) -> soff + n <= Z.of_nat (length src) ->
  nth_error (memcpy dst doff src soff n) j =
  if ((Z.to_nat doff <=? j) && (j <? Z.to_nat (doff + n)))%nat
  then nth_error src (Z.to_nat soff + (j - Z.to_nat doff))
  else nth_error dst j.
Proof.
  intros. unfold memcpy.
  rewrite !nth_error_app, !length_firstn, !length_skipn.
  rewrite !nth_error_firstn, !nth_error_skipn.
  repeat match goal with
         | |- context [(?a <? ?b)%nat] => destruct (Nat.ltb_spec a b)
         | |- context [(?a <=? ?b)%nat] => destruct (Nat.leb_spec a b)
         end; simpl; try lia; try (f_equal; lia).
Qed.

Ltac split_nat_tests :=
  repeat match goal with
         | |- context [(?a <? ?b)%nat] => destruct (Nat.ltb_spec a b)
         | |- context [(?a <=? ?b)%nat] => destruct (Nat.leb_spec a b)
         end; simpl.

Ltac close_index := try lia; try reflexivity; try (f_equal; lia).

(** ** The ring as a window *)

Lemma window_nth_error d s q a i :
  (s <= length d)%nat ->
  nth_error (window d s q a) i =
  if (i <? a)%nat then
    if (q + i <? s)%nat then nth_error d (q + i)
    else if (q + i <? s + s)%nat then nth_error d (q + i - s) else None
  else None.
Proof.
  intros Hs. unfold window.
  rewrite nth_error_firstn, nth_error_skipn, nth_error_app, length_firstn.
  rewrite !nth_error_firstn.
  replace (Nat.min s (length d)) with s by lia.
  split_nat_tests; close_index.
Qed.

Lemma window_length d s q a :
  (s <= length d)%nat -> (a = 0 \/ (q <= s /\ a <= s))%nat ->
  length (window d s q a) = a.
Proof.
  intros Hs Ha. unfold window.
  rewrite length_firstn, length_skipn, length_app, length_firstn. lia.
Qed.

Lemma window_firstn d s q a n :
  (n <= a)%nat -> firstn n (window d s q a) = window d s q n.
Proof.
  intros Hn. unfold window. rewrite firstn_firstn.
  replace (Nat.min n a) with n by lia. reflexivity.
Qed.

(** Taking [n] bytes off the front moves the window [n] places round. *)
Lemma window_skipn d s q q' a n :
  (s <= length d)%nat -> (q < s)%nat -> (n <= a)%nat -> (a <= s)%nat ->
  (q' < s)%nat -> (q' = q + n \/ q' + s = q + n)%nat ->
  window d s q' (a - n) = skipn n (window d s q a).
Proof.
  intros Hs Hq Hn Ha Hq' Hrel. apply nth_error_ext. intros i.
  rewrite nth_error_skipn, !window_nth_error by exact Hs.
  split_nat_tests; close_index.
Qed.

(** The two [memcpy] calls of [rb_out] and [rb_peek]: the first [n] bytes
    of the caller's block become the window of [n] bytes at [q]. *)
Lemma copy_out_window d s q n buf :
  0 <= q < s -> 0 <= n <= s ->
  s <= Z.of_nat (length d) -> n <= Z.of_nat (length buf) ->
  let l := Z.min n (s - q) in
  memcpy (memcpy buf 0 d q l) l d 0 (n - l)
  = window d (Z.to_nat s) (Z.to_nat q) (Z.to_nat n)
      ++ skipn (Z.to_nat n) buf.
Proof.
  intros Hq Hn Hs Hb l.
  assert (Hl : 0 <= l <= n /\ l <= s - q) by (subst l; lia).
  assert (Hlen1 : length (memcpy buf 0 d q l) = length buf)
    by (apply memcpy_length; lia).
  apply nth_error_ext. intros j.
  rewrite memcpy_nth_error by lia.
  rewrite memcpy_nth_error by lia.
  rewrite nth_error_app, window_length by lia.
  rewrite window_nth_error by lia.
  rewrite nth_error_skipn.
  subst l. split_nat_tests; close_index.
Qed.

Ltac prune_nat_tests :=
  repeat (match goal with
          | |- context [(?a <? ?b)%nat] => destruct (Nat.ltb_spec a b)
          | |- context [(?a <=? ?b)%nat] => destruct (Nat.leb_spec a b)
          end; simpl; try lia).

(** The store after the two [memcpy] calls of [rb_in], byte by byte: [n]
    bytes are written, [l] of them from offset [p] up to the end of the
    ring and the other [n - l] from offset 0. *)
Lemma copy_in_nth_error d s p n buf (j : nat) :
  0 <= p < s -> 0 <= n <= s ->
  s <= Z.of_nat (length d) -> n <= Z.of_nat (length buf) ->
  let l := Z.min n (s - p) in
  nth_error (memcpy (memcpy d p buf 0 l) 0 buf l (n - l)) j =
  if (j <? Z.to_nat (n - l))%nat then nth_error buf (Z.to_nat l + j)
  else if ((Z.to_nat p <=? j) && (j <? Z.to_nat (p + l)))%nat
       then nth_error buf (j - Z.to_nat p)
       else nth_error d j.
Proof.
  intros Hp Hn Hs Hb l.
  assert (Hl : 0 <= l <= n /\ l <= s - p) by (subst l; lia).
  assert (Hlen1 : length (memcpy d p buf 0 l) = length d)
    by (apply memcpy_length; lia).
  rewrite memcpy_nth_error by lia.
  rewrite memcpy_nth_error by lia.
  prune_nat_tests; close_index.
Qed.

(** A window over a store that was written as [copy_in_nth_error] says. *)
Lemma window_write (d d' buf : list byte) (s q a p n l : nat) :
  (s <= length d)%nat -> (q < s)%nat -> (a + n <= s)%nat -> (p < s)%nat ->
  (p = q + a \/ p + s = q + a)%nat -> l = Nat.min n (s - p) ->
  length d' = length d ->
  (forall j, nth_error d' j =
             if (j <? n - l)%nat then nth_error buf (l + j)
             else if ((p <=? j) && (j <? p + l))%nat
                  then nth_error buf (j - p)
                  else nth_error d j) ->
  window d' s q (a + n) = window d s q a ++ firstn n buf.
Proof.
  intros Hs Hq Han Hp Hrel Hl Hlen Hd'.
  apply nth_error_ext. intros i.
  rewrite nth_error_app, window_length by lia.
  rewrite !window_nth_error by lia.
  rewrite nth_error_firstn, !Hd'.
  destruct (Nat.ltb_spec i a); simpl.
  - prune_nat_tests; close_index.
  - destruct (Nat.ltb_spec (i - a) n); simpl.
    + prune_nat_tests; close_index.
    + destruct (Nat.ltb_spec i (a + n)); simpl; [lia|reflexivity].
Qed.

(** The Z-level form of [window_write] for the code of [rb_in]. *)
Lemma copy_in_window d s q a p n buf :
  0 <= q < s -> 0 <= a -> 0 <= n -> a + n <= s ->
  0 <= p < s -> (p = q + a \/ p + s = q + a) ->
  s <= Z.of_nat (length d) -> n <= Z.of_nat (length buf) ->
  let l := Z.min n (s - p) in
  let d' := memcpy (memcpy d p buf 0 l) 0 buf l (n - l) in
  length d' = length d /\
  window d' (Z.to_nat s) (Z.to_nat q) (Z.to_nat (a + n))
  = window d (Z.to_nat s) (Z.to_nat q) (Z.to_nat a)
      ++ firstn (Z.to_nat n) buf.
Proof.
  intros Hq Ha Hn Han Hp Hrel Hs Hb l d'.
  assert (Hl : 0 <= l <= n /\ l <= s - p) by (subst l; lia).
  assert (Hlen : length d' = length d).
  { subst d'. rewrite !memcpy_length by (rewrite ?memcpy_length; lia).
    reflexivity. }
  split; [exact Hlen|].
  rewrite Z2Nat.inj_add by lia.
  apply (window_write d d' buf (Z.to_nat s) (Z.to_nat q) (Z.to_nat a)
                      (Z.to_nat p) (Z.to_nat n) (Z.to_nat l));
    try lia.
  intros j. subst d'. fold l.
  pose proof (copy_in_nth_error d s p n buf j Hp ltac:(lia) Hs Hb) as E.
  cbv zeta in E. fold l in E. rewrite E.
  replace (Z.to_nat (n - l)) with (Z.to_nat n - Z.to_nat l)%nat by lia.
  replace (Z.to_nat (p + l)) with (Z.to_nat p + Z.to_nat l)%nat by lia.
  reflexivity.
Qed.

(** ** Facts the invariant gives *)

Lemma mod_once x s :
  0 < s -> 0 <= x < 2 * s -> x mod s = x \/ x mod s + s = x.
Proof.
  intros Hs Hx.
  destruct (Z.lt_ge_cases x s) as [Hlt|Hge].
  - left. apply Z.mod_small. lia.
  - right. replace x with ((x - s) + 1 * s) at 1 by lia.
    rewrite Z.mod_add by lia. rewrite Z.mod_small by lia. lia.
Qed.

Section Facts.

Variable r : ringbuffer.
Hypothesis Hinv : rb_inv r.

Lemma inv_avail_range : 0 <= rb_avail r <= r_size r.
Proof.
  split; [apply u32_range | apply (inv_avail r Hinv)].
Qed.

Lemma inv_size_range : 0 <= r_size r /\ 2 * r_size r <= modulus.
Proof.
  destruct (inv_size r Hinv) as [E|[k [Hk E]]]; rewrite E.
  - unfold modulus. lia.
  - pose proof (pow2_le_modulus k Hk). lia.
Qed.

Lemma inv_unused : rb_unused r = r_size r - rb_avail r.
Proof.
  unfold rb_unused. fold (rb_avail r).
  pose proof inv_avail_range. pose proof inv_size_range.
  apply u32_id. unfold is_u32, modulus in *. lia.
Qed.

Lemma inv_zero_size_empty : r_size r = 0 -> rb_avail r = 0.
Proof. pose proof inv_avail_range. lia. Qed.

Section Positive.

Hypothesis Hpos : 0 < r_size r.

Lemma inv_land c : Z.land c (r_mask r) = c mod r_size r.
Proof.
  rewrite (inv_mask r Hinv).
  destruct (inv_size r Hinv) as [E|[k [Hk E]]]; [lia|].
  rewrite E. apply land_mask_pow2. exact Hk.
Qed.

Lemma inv_land_range c : 0 <= Z.land c (r_mask r) < r_size r.
Proof. rewrite inv_land. apply Z.mod_pos_bound. exact Hpos. Qed.

(** The physical offset of a cursor moved [n] bytes forward. *)
Lemma inv_land_add c n :
  Z.land (u32 (c + n)) (r_mask r)
  = (Z.land c (r_mask r) + n) mod r_size r.
Proof.
  rewrite !inv_land.
  destruct (inv_size r Hinv) as [E|[k [Hk E]]]; [lia|].
  rewrite E, mod_pow2_u32 by exact Hk.
  rewrite Z.add_mod_idemp_l; [reflexivity|].
  pose proof (pow2_le_modulus k Hk). lia.
Qed.

(** The write cursor sits [rb_avail r] bytes after the read cursor,
    going round the ring at most once. *)
Lemma inv_in_offset :
  Z.land (r_in r) (r_mask r) = Z.land (r_out r) (r_mask r) + rb_avail r
  \/ Z.land (r_in r) (r_mask r) + r_size r
     = Z.land (r_out r) (r_mask r) + rb_avail r.
Proof.
  assert (E : r_in r = u32 (r_out r + rb_avail r)).
  { unfold rb_avail, u32. rewrite Zplus_mod_idemp_r.
    replace (r_out r + (r_in r - r_out r)) with (r_in r) by lia.
    symmetry. apply Z.mod_small. apply (inv_in r Hinv). }
  rewrite E at 1 2. rewrite inv_land_add.
  pose proof (inv_land_range (r_out r)). pose proof inv_avail_range.
  apply mod_once; lia.
Qed.

End Positive.

End Facts.

(** ** The three transfer functions *)

Ltac proj_simpl :=
  cbn [r_in r_out r_mask r_size r_esize r_data rb_size
       set_in set_out set_mask set_size set_esize set_data fst snd] in *.

Lemma min_zero_l x : 0 <= x -> min 0 x = 0.
Proof. intros. rewrite min_spec. lia. Qed.

Lemma u32_zero : u32 (0 - 0) = 0.
Proof. reflexivity. Qed.

(** A call that transfers no byte changes nothing at all. *)
Lemma rb_in_nothing r buf len :
  is_u32 (r_in r) -> min len (rb_unused r) = 0 -> rb_in r buf len = (0, r).
Proof.
  intros Hin H0. unfold rb_in. cbv zeta. rewrite H0.
  rewrite min_zero_l by apply u32_range.
  rewrite u32_zero, !memcpy_zero. destruct r. proj_simpl.
  rewrite Z.add_0_r, (u32_id _ Hin). reflexivity.
Qed.

Lemma rb_out_nothing r buf len :
  is_u32 (r_out r) -> min len (rb_avail r) = 0 ->
  rb_out r buf len = (0, r, buf).
Proof.
  intros Hout H0. unfold rb_out. cbv zeta. rewrite H0.
  rewrite min_zero_l by apply u32_range.
  rewrite u32_zero, !memcpy_zero. destruct r. proj_simpl.
  rewrite Z.add_0_r, (u32_id _ Hout). reflexivity.
Qed.

Lemma rb_peek_nothing r buf len :
  min len (rb_avail r) = 0 -> rb_peek r buf len = (r, buf).
Proof.
  intros H0. unfold rb_peek. cbv zeta. rewrite H0.
  rewrite min_zero_l by apply u32_range.
  rewrite u32_zero, !memcpy_zero. reflexivity.
Qed.

(** [rb_peek] runs the copy of [rb_out] and keeps the struct. *)
Lemma rb_peek_rb_out r buf len :
  rb_peek r buf len = (r, snd (rb_out r buf len)).
Proof. reflexivity. Qed.

(** [rb_in] on a ring of nonzero size. *)
Lemma rb_in_pos r buf len :
  rb_inv r -> 0 < r_size r -> is_u32 len ->
  min len (rb_unused r) <= Z.of_nat (length buf) ->
  let n := min len (rb_unused r) in
  let r' := snd (rb_in r buf len) in
  rb_inv r' /\ rb_avail r' = rb_avail r + n
  /\ contents r' = contents r ++ firstn (Z.to_nat n) buf.
Proof.
  intros Hinv Hpos Hlen Hbuf n r'.
  pose proof (inv_avail_range r Hinv) as Ha.
  pose proof (inv_size_range r Hinv) as Hs.
  pose proof (inv_unused r Hinv) as Hu.
  pose proof (inv_land_range r Hinv Hpos (r_in r)) as Hp.
  pose proof (inv_land_range r Hinv Hpos (r_out r)) as Hq.
  pose proof (inv_in_offset r Hinv Hpos) as Hrel.
  pose proof (inv_data r Hinv) as Hd.
  assert (Hn : 0 <= n <= r_size r - rb_avail r).
  { subst n. rewrite min_spec, Hu. unfold is_u32 in Hlen. lia. }
  set (p := Z.land (r_in r) (r_mask r)) in *.
  set (q := Z.land (r_out r) (r_mask r)) in *.
  assert (El : min n (u32 (r_size r - p)) = Z.min n (r_size r - p)).
  { rewrite min_spec, u32_id; [reflexivity|].
    unfold is_u32, modulus in *. lia. }
  assert (El' : u32 (n - Z.min n (r_size r - p)) = n - Z.min n (r_size r - p)).
  { apply u32_id. unfold is_u32, modulus in *. lia. }
  destruct (copy_in_window (r_data r) (r_size r) q (rb_avail r) p n buf)
    as [Hlen' Hwin]; try lia.
  assert (Er : r' = mk_ringbuffer (u32 (r_in r + n)) (r_out r) (r_mask r)
                      (r_size r) (r_esize r)
                      (memcpy (memcpy (r_data r) p buf 0
                                 (Z.min n (r_size r - p)))
                              0 buf (Z.min n (r_size r - p))
                              (n - Z.min n (r_size r - p)))).
  { subst r'. unfold rb_in. cbv zeta. fold n. fold p.
    rewrite El, El'. reflexivity. }
  assert (Eav : rb_avail r' = rb_avail r + n).
  { rewrite Er. unfold rb_avail. proj_simpl.
    apply u32_add_sub; [lia|].
    fold (rb_avail r). unfold modulus in *. lia. }
  split; [|split].
  - constructor; rewrite ?Eav; rewrite Er; proj_simpl.
    + apply (inv_size r Hinv).
    + apply (inv_mask r Hinv).
    + apply u32_range.
    + apply (inv_out r Hinv).
    + lia.
    + rewrite Hlen'. exact Hd.
  - exact Eav.
  - unfold contents. rewrite Eav. rewrite Er. proj_simpl. fold q.
    exact Hwin.
Qed.

(** [rb_out] and [rb_peek] on a ring of nonzero size. *)
Lemma rb_out_pos r buf len :
  rb_inv r -> 0 < r_size r -> is_u32 len ->
  min len (rb_avail r) <= Z.of_nat (length buf) ->
  let n := min len (rb_avail r) in
  let r' := snd (fst (rb_out r buf len)) in
  rb_inv r' /\ rb_avail r' = rb_avail r - n
  /\ contents r' = skipn (Z.to_nat n) (contents r)
  /\ snd (rb_out r buf len)
     = firstn (Z.to_nat n) (contents r) ++ skipn (Z.to_nat n) buf.
Proof.
  intros Hinv Hpos Hlen Hbuf n r'.
  pose proof (inv_avail_range r Hinv) as Ha.
  pose proof (inv_size_range r Hinv) as Hs.
  pose proof (inv_land_range r Hinv Hpos (r_out r)) as Hq.
  pose proof (inv_data r Hinv) as Hd.
  assert (Hn : 0 <= n <= rb_avail r).
  { subst n. rewrite min_spec. unfold is_u32 in Hlen. lia. }
  pose proof (inv_land_range r Hinv Hpos (u32 (r_out r + n))) as Hq'.
  pose proof (inv_land_add r Hinv Hpos (r_out r) n) as Eq'.
  set (q := Z.land (r_out r) (r_mask r)) in *.
  set (q' := Z.land (u32 (r_out r + n)) (r_mask r)) in *.
  assert (Hrel : q' = q + n \/ q' + r_size r = q + n).
  { rewrite Eq'. apply mod_once; lia. }
  assert (El : min n (u32 (r_size r - q)) = Z.min n (r_size r - q)).
  { rewrite min_spec, u32_id; [reflexivity|].
    unfold is_u32, modulus in *. lia. }
  assert (El' : u32 (n - Z.min n (r_size r - q)) = n - Z.min n (r_size r - q)).
  { apply u32_id. unfold is_u32, modulus in *. lia. }
  assert (Eo : rb_out r buf len
               = (n, set_out r (u32 (r_out r + n)),
                  window (r_data r) (Z.to_nat (r_size r)) (Z.to_nat q)
                         (Z.to_nat n) ++ skipn (Z.to_nat n) buf)).
  { unfold rb_out. cbv zeta. fold n. fold q. rewrite El, El'.
    rewrite copy_out_window by lia. reflexivity. }
  assert (Er : r' = set_out r (u32 (r_out r + n))).
  { subst r'. rewrite Eo. reflexivity. }
  assert (Eav : rb_avail r' = rb_avail r - n).
  { rewrite Er. unfold rb_avail. proj_simpl.
    apply u32_sub_add. exact Hn. }
  split; [|split; [|split]].
  - constructor; rewrite ?Eav; rewrite Er; proj_simpl.
    + apply (inv_size r Hinv).
    + apply (inv_mask r Hinv).
    + apply (inv_in r Hinv).
    + apply u32_range.
    + lia.
    + exact Hd.
  - exact Eav.
  - unfold contents. rewrite Eav. rewrite Er. proj_simpl. fold q. fold q'.
    replace (Z.to_nat (rb_avail r - n))
      with (Z.to_nat (rb_avail r) - Z.to_nat n)%nat by lia.
    apply window_skipn; lia.
  - rewrite Eo. cbn [snd]. unfold contents. fold q.
    rewrite window_firstn by lia. reflexivity.
Qed.

(** [rb_in] in every state of the invariant: it takes the first
    [min len (rb_unused r)] bytes of the caller's block and puts them at the
    back of the queue. *)
Lemma rb_in_spec r buf len :
  rb_inv r -> is_u32 len ->
  min len (rb_unused r) <= Z.of_nat (length buf) ->
  let n := min len (rb_unused r) in
  let r' := snd (rb_in r buf len) in
  rb_in r buf len = (n, r') /\ rb_inv r' /\ rb_avail r' = rb_avail r + n
  /\ contents r' = contents r ++ firstn (Z.to_nat n) buf.
Proof.
  intros Hinv Hlen Hbuf n r'. split; [reflexivity|].
  pose proof (inv_size_range r Hinv) as Hs.
  destruct (Z.eq_dec (r_size r) 0) as [E0|Hne].
  - assert (En : n = 0).
    { subst n. rewrite min_spec, (inv_unused r Hinv), E0.
      rewrite (inv_zero_size_empty r Hinv E0).
      unfold is_u32 in Hlen. lia. }
    subst r'. rewrite (rb_in_nothing r buf len (inv_in r Hinv) En).
    rewrite En. cbn [snd Z.to_nat firstn].
    rewrite app_nil_r, Z.add_0_r. auto.
  - apply rb_in_pos; [exact Hinv|lia|exact Hlen|exact Hbuf].
Qed.

(** [rb_out] in every state of the invariant: it moves the first
    [min len (rb_avail r)] bytes of the queue to the front of the caller's
    block. *)
Lemma rb_out_spec r buf len :
  rb_inv r -> is_u32 len ->
  min len (rb_avail r) <= Z.of_nat (length buf) ->
  let n := min len (rb_avail r) in
  let r' := snd (fst (rb_out r buf len)) in
  let buf' := firstn (Z.to_nat n) (contents r) ++ skipn (Z.to_nat n) buf in
  rb_out r buf len = (n, r', buf') /\ rb_inv r'
  /\ rb_avail r' = rb_avail r - n
  /\ contents r' = skipn (Z.to_nat n) (contents r).
Proof.
  intros Hinv Hlen Hbuf n r' buf'.
  pose proof (inv_size_range r Hinv) as Hs.
  destruct (Z.eq_dec (r_size r) 0) as [E0|Hne].
  - assert (En : n = 0).
    { subst n. rewrite min_spec, (inv_zero_size_empty r Hinv E0).
      unfold is_u32 in Hlen. lia. }
    subst r' buf'. rewrite (rb_out_nothing r buf len (inv_out r Hinv) En).
    rewrite En. cbn [fst snd Z.to_nat firstn skipn app].
    rewrite Z.sub_0_r. auto.
  - destruct (rb_out_pos r buf len Hinv ltac:(lia) Hlen Hbuf)
      as (Hi & Ha & Hc & Hb).
    fold n in Ha, Hc, Hb. fold r' in Hi, Ha, Hc.
    split; [|auto].
    assert (En : fst (fst (rb_out r buf len)) = n) by reflexivity.
    subst buf'. rewrite <- Hb, <- En. subst r'.
    destruct (rb_out r buf len) as [[x y] z]. reflexivity.
Qed.

(** [rb_peek] in every state of the invariant. *)
Lemma rb_peek_spec r buf len :
  rb_inv r -> is_u32 len ->
  min len (rb_avail r) <= Z.of_nat (length buf) ->
  let n := min len (rb_avail r) in
  rb_peek r buf len
  = (r, firstn (Z.to_nat n) (contents r) ++ skipn (Z.to_nat n) buf).
Proof.
  intros Hinv Hlen Hbuf n.
  destruct (rb_out_spec r buf len Hinv Hlen Hbuf) as (E & _).
  rewrite rb_peek_rb_out, E. reflexivity.
Qed.

Lemma contents_length r :
  rb_inv r -> length (contents r) = Z.to_nat (rb_avail r).
Proof.
  intros Hinv. unfold contents.
  pose proof (inv_avail_range r Hinv) as Ha.
  pose proof (inv_data r Hinv) as Hd.
  apply window_length; [lia|].
  destruct (Z.eq_dec (r_size r) 0) as [E0|Hne].
  - left. lia.
  - right. pose proof (inv_land_range r Hinv ltac:(lia) (r_out r)). lia.
Qed.

(** ** Initialisation *)

Lemma roundup_scan_cases k len mask0 :
  roundup_scan k len mask0 = mask0
  \/ exists i, (i < k)%nat
               /\ roundup_scan k len mask0 = s32 (Z.shiftl 1 (Z.of_nat i)).
Proof.
  revert mask0. induction k as [|k IH]; intros mask0; cbn [roundup_scan].
  - left. reflexivity.
  - destruct (_ =? _).
    + right. exists k. split; [lia|reflexivity].
    + destruct (IH (s32 (Z.shiftl 1 (Z.of_nat k)))) as [E|[i [Hi E]]].
      * right. exists k. split; [lia|exact E].
      * right. exists i. split; [lia|exact E].
Qed.

Lemma roundup_shift_cases (i : nat) :
  (i < 32)%nat ->
  let z := u32 (s32 (Z.shiftl (s32 (Z.shiftl 1 (Z.of_nat i))) 1)) in
  z = 0 \/ exists k, 0 <= k <= 31 /\ z = 2 ^ k.
Proof.
  intros Hi z.
  assert (Hz : z = u32 (s32 (Z.shiftl (s32 (Z.shiftl 1 (Z.of_nat i))) 1)))
    by reflexivity.
  clearbody z.
  do 32 (destruct i as [|i];
         [ vm_compute in Hz; subst z;
           first [ left; reflexivity
                 | right;
                   match goal with
                   | |- exists k, _ /\ ?z = _ =>
                       let k := eval vm_compute in (Z.log2 z) in
                       exists k; split; [lia|reflexivity]
                   end ]
         | ]).
  lia.
Qed.

(** What [roundup_pow_of_two] returns on a [uint32_t]: zero or a power of
    two. *)
Lemma roundup_pow_of_two_cases v :
  is_u32 v ->
  roundup_pow_of_two v = 0
  \/ exists k, 0 <= k <= 31 /\ roundup_pow_of_two v = 2 ^ k.
Proof.
  intros Hv. unfold roundup_pow_of_two.
  destruct (Z.eqb_spec (Z.land v (u32 (v - 1))) 0) as [E|NE].
  - destruct (Z.eq_dec v 0) as [E0|Hne]; [left; exact E0|right].
    rewrite u32_id in E by (unfold is_u32, modulus in *; lia).
    destruct (land_pred_zero v ltac:(unfold is_u32 in Hv; lia) E)
      as [k [Hk Ek]].
    exists k. split; [|exact Ek].
    split; [exact Hk|].
    destruct (Z.le_gt_cases k 31) as [Hle|Hgt]; [exact Hle|exfalso].
    assert (2 ^ 32 <= 2 ^ k) by (apply Z.pow_le_mono_r; lia).
    unfold is_u32, modulus in Hv. lia.
  - cbv zeta.
    destruct (roundup_scan_cases 32 v 0) as [E|[i [Hi E]]]; rewrite E.
    + left. reflexivity.
    + apply roundup_shift_cases. exact Hi.
Qed.

(** A successful [rb_init] leaves a struct that meets the invariant, with
    both cursors at 0. *)
Lemma rb_init_inv bk r0 len esize r :
  struct_ok bk r0 -> is_u32 esize ->
  rb_init bk (Some r0) len esize = (0, Some r) ->
  rb_inv r /\ r_in r = 0 /\ r_out r = 0 /\ r_mask r = u32 (r_size r - 1).
Proof.
  intros Hok Hes Hinit. unfold rb_init in Hinit.
  destruct ((len =? 0) || (esize =? 0)) eqn:Hz; [discriminate|].
  apply orb_false_elim in Hz. destruct Hz as [_ Hez].
  apply Z.eqb_neq in Hez.
  destruct bk as [L|malloc_ok fresh]; proj_simpl.
  - set (s := u32 (L / esize)) in *.
    destruct (Z.eqb_spec (Z.land s (u32 (s - 1))) 0) as [E|NE];
      cbn [negb] in Hinit; [|discriminate].
    injection Hinit as <-. proj_simpl.
    pose proof (u32_range (L / esize)) as Hs. fold s in Hs.
    split; [|auto].
    constructor; proj_simpl; try (unfold is_u32, modulus; lia).
    + destruct (Z.eq_dec s 0) as [E0|Hne]; [left; exact E0|right].
      rewrite u32_id in E by (unfold is_u32, modulus in *; lia).
      destruct (land_pred_zero s ltac:(unfold is_u32 in Hs; lia) E)
        as [k [Hk Ek]].
      exists k. split; [|exact Ek]. split; [exact Hk|].
      destruct (Z.le_gt_cases k 31) as [Hle|Hgt]; [exact Hle|exfalso].
      assert (2 ^ 32 <= 2 ^ k) by (apply Z.pow_le_mono_r; lia).
      unfold is_u32, modulus in Hs. lia.
    + unfold rb_avail. proj_simpl. rewrite u32_zero. apply Hs.
    + cbn [struct_ok] in Hok.
      assert (HL : 0 <= L) by (rewrite <- Hok; lia).
      rewrite Hok.
      assert (Hq : 0 <= L / esize <= L).
      { unfold is_u32 in Hes.
        split; [apply Z.div_pos; lia|].
        apply Z.div_le_upper_bound; [lia|]. nia. }
      pose proof (Z.mod_le (L / esize) modulus) as Hm.
      subst s. unfold u32, modulus in *. lia.
  - set (s := roundup_pow_of_two (u32 (esize * len))) in *.
    destruct (malloc_ok s); [|discriminate].
    injection Hinit as <-. proj_simpl.
    pose proof (roundup_pow_of_two_cases _ (u32_range (esize * len))) as Hs.
    fold s in Hs.
    split; [|auto].
    constructor; proj_simpl; try (unfold is_u32, modulus; lia).
    + exact Hs.
    + unfold rb_avail. proj_simpl. rewrite u32_zero.
      destruct Hs as [E|[k [Hk E]]]; rewrite E; [lia|].
      pose proof (pow2_le_modulus k Hk). lia.
    + rewrite length_map, length_seq.
      destruct Hs as [E|[k [Hk E]]]; rewrite E; [simpl; lia|].
      pose proof (pow2_le_modulus k Hk). lia.
Qed.

(** Every reachable state meets the invariant. *)
Lemma reachable_inv bk r : reachable bk r -> rb_inv r.
Proof.
  induction 1 as [r0 len esize r Hok Hlen Hes Hinit | r c Hr IH Hc].
  - apply (rb_init_inv bk r0 len esize r Hok Hes Hinit).
  - destruct c as [buf len|buf len|buf len]; cbn [exec call_ok] in *;
      destruct Hc as [Hlen Hbuf].
    + apply (rb_in_spec r buf len IH Hlen Hbuf).
    + apply (rb_out_spec r buf len IH Hlen Hbuf).
    + exact IH.
Qed.

(** ** Concrete states *)

Ltac u32_literal := unfold is_u32, modulus; lia.

Lemma scenario_reachable_r0 : reachable Scenario.bk8 Scenario.r0.
Proof.
  apply (reach_init Scenario.bk8 Scenario.blank 8 1);
    [reflexivity | u32_literal | u32_literal | reflexivity].
Qed.

Lemma scenario_reachable_r1 : reachable Scenario.bk8 (snd Scenario.r1).
Proof.
  apply (reach_call Scenario.bk8 Scenario.r0
           (Write [x01; x02; x03; x04; x05; x06] 6)).
  - exact scenario_reachable_r0.
  - split; [u32_literal | vm_compute; discriminate].
Qed.

Lemma scenario_reachable_r2 : reachable Scenario.bk8 (snd Scenario.r2).
Proof.
  apply (reach_call Scenario.bk8 (snd Scenario.r1)
           (Write [x07; x08; x09] 3)).
  - exact scenario_reachable_r1.
  - split; [u32_literal | vm_compute; discriminate].
Qed.

Lemma scenario_reachable_r3 :
  reachable Scenario.bk8 (snd (fst Scenario.r3)).
Proof.
  apply (reach_call Scenario.bk8 (snd Scenario.r2) (Read (repeat x00 5) 5)).
  - exact scenario_reachable_r2.
  - split; [u32_literal | vm_compute; discriminate].
Qed.

Lemma scenario_reachable_r4 : reachable Scenario.bk8 (snd Scenario.r4).
Proof.
  apply (reach_call Scenario.bk8 (snd (fst Scenario.r3))
           (Write [x09; x0a] 2)).
  - exact scenario_reachable_r3.
  - split; [u32_literal | vm_compute; discriminate].
Qed.

Lemma scenario_reachable_rs :
  reachable Scenario.bk8 (snd (fst Scenario.rs)).
Proof.
  apply (reach_call Scenario.bk8 (snd Scenario.r1) (Read (repeat x00 4) 4)).
  - exact scenario_reachable_r1.
  - split; [u32_literal | vm_compute; discriminate].
Qed.


Lemma degenerate_init :
  rb_init Degenerate.bk256 (Some Degenerate.blank) 1 257
  = (0, Some Degenerate.r0).
Proof. reflexivity. Qed.

Lemma degenerate_reachable : reachable Degenerate.bk256 Degenerate.r0.
Proof.
  apply (reach_init Degenerate.bk256 Degenerate.blank 1 257);
    [reflexivity | u32_literal | u32_literal | exact degenerate_init].
Qed.

Lemma wrapping_inv : rb_inv Wrapping.r0.
Proof.
  constructor; cbn [Wrapping.r0 r_size r_mask r_in r_out r_data].
  - right. exists 3. split; [lia | reflexivity].
  - reflexivity.
  - u32_literal.
  - u32_literal.
  - vm_compute. discriminate.
  - vm_compute. discriminate.
Qed.

Lemma wrapping_calls_ok : calls_ok Wrapping.r0 Wrapping.calls.
Proof.
  cbn [calls_ok Wrapping.calls call_ok].
  repeat split; try u32_literal; vm_compute; discriminate.
Qed.

(** * The claims *)

(** C3 (capacity invariant): in every state a successfully constructed
    buffer reaches by [rb_in], [rb_out] and [rb_peek] calls, the number of
    occupied bytes, which is the unsigned difference of the two cursors,
    lies between 0 and the capacity. *)
Theorem capacity_invariant bk r :
  reachable bk r ->
  rb_avail r = u32 (r_in r - r_out r) /\ 0 <= rb_avail r <= rb_size r.
Proof.
  intros Hr. split; [reflexivity|].
  apply inv_avail_range. apply (reachable_inv bk r Hr).
Qed.

Lemma capacity_invariant_witness :
  rb_avail (snd Scenario.r2)
  = u32 (r_in (snd Scenario.r2) - r_out (snd Scenario.r2))
  /\ 0 <= rb_avail (snd Scenario.r2) <= rb_size (snd Scenario.r2).
Proof.
  apply (capacity_invariant Scenario.bk8). exact scenario_reachable_r2.
Defined.

(** C9 (frame of Write): [rb_in] assigns to the store and to the write
    cursor only; the read cursor, the capacity, the mask and the element
    size are what they were, for every struct and every input. *)
Theorem rb_in_frame r buf len :
  r_out (snd (rb_in r buf len)) = r_out r
  /\ r_size (snd (rb_in r buf len)) = r_size r
  /\ r_mask (snd (rb_in r buf len)) = r_mask r
  /\ r_esize (snd (rb_in r buf len)) = r_esize r.
Proof. repeat split. Qed.

(** C10 (zero length): in every reachable state a call of [rb_in] or
    [rb_out] with [len = 0] returns 0 and leaves the whole struct (cursors
    and store) as it was, and [rb_out] and [rb_peek] with [len = 0] leave
    the caller's block as it was. *)
Theorem zero_length_noop bk r buf :
  reachable bk r ->
  rb_in r buf 0 = (0, r)
  /\ rb_out r buf 0 = (0, r, buf)
  /\ rb_peek r buf 0 = (r, buf).
Proof.
  intros Hr. pose proof (reachable_inv bk r Hr) as Hinv.
  split; [|split].
  - apply rb_in_nothing; [apply (inv_in r Hinv)|].
    apply min_zero_l, u32_range.
  - apply rb_out_nothing; [apply (inv_out r Hinv)|].
    apply min_zero_l, u32_range.
  - apply rb_peek_nothing. apply min_zero_l, u32_range.
Qed.

Lemma zero_length_noop_witness :
  rb_in (snd Scenario.r1) [x07] 0 = (0, snd Scenario.r1)
  /\ rb_out (snd Scenario.r1) [x07] 0 = (0, snd Scenario.r1, [x07])
  /\ rb_peek (snd Scenario.r1) [x07] 0 = (snd Scenario.r1, [x07]).
Proof.
  apply (zero_length_noop Scenario.bk8). exact scenario_reachable_r1.
Defined.

(** C8 (initialisation contract): [rb_init] returns a negative value when
    [len] or [esize] is 0, in both builds and whatever [r] is; and when it
    returns 0 both cursors are 0 and the mask is [r->size - 1], the
    subtraction being the [uint32_t] one of the C code (it is the integer
    [size - 1] when the size is not 0). *)
Theorem rb_init_contract bk r len esize :
  (len = 0 \/ esize = 0 -> fst (rb_init bk r len esize) < 0)
  /\ (forall r', rb_init bk r len esize = (0, Some r') ->
        r_in r' = 0 /\ r_out r' = 0 /\ r_mask r' = u32 (r_size r' - 1)
        /\ (0 < r_size r' < modulus -> r_mask r' = r_size r' - 1)).
Proof.
  split.
  - intros Hz. unfold rb_init. destruct r as [r|]; [|cbn; lia].
    assert (E : (len =? 0) || (esize =? 0) = true).
    { destruct Hz as [-> | ->]; [reflexivity|apply orb_true_r]. }
    rewrite E. cbn. lia.
  - intros r' Hinit.
    assert (H3 : r_in r' = 0 /\ r_out r' = 0
                 /\ r_mask r' = u32 (r_size r' - 1)).
    { unfold rb_init in Hinit. destruct r as [r|]; [|discriminate].
      destruct ((len =? 0) || (esize =? 0)); [discriminate|].
      destruct bk as [L|malloc_ok fresh]; proj_simpl.
      - destruct (negb _); [discriminate|].
        injection Hinit as <-. repeat split.
      - destruct (malloc_ok _); [|discriminate].
        injection Hinit as <-. repeat split. }
    destruct H3 as (Hi & Ho & Hm). repeat split; try assumption.
    intros Hs. rewrite Hm. apply u32_id. unfold is_u32. lia.
Qed.

Lemma rb_init_contract_witness :
  fst (rb_init Scenario.bk8 (Some Scenario.blank) 8 0) < 0
  /\ fst (rb_init Dynamic.bk (Some Dynamic.blank) 0 1) < 0
  /\ r_in Scenario.r0 = 0 /\ r_out Scenario.r0 = 0
  /\ r_mask Scenario.r0 = u32 (r_size Scenario.r0 - 1).
Proof.
  split; [|split].
  - apply (rb_init_contract Scenario.bk8 (Some Scenario.blank) 8 0).
    right. reflexivity.
  - apply (rb_init_contract Dynamic.bk (Some Dynamic.blank) 0 1).
    left. reflexivity.
  - destruct (proj2 (rb_init_contract Scenario.bk8 (Some Scenario.blank) 8 1)
                Scenario.r0 eq_refl) as (Hi & Ho & Hm & _).
    exact (conj Hi (conj Ho Hm)).
Defined.

(** ** Conservation *)

(** A run of calls changes the occupancy by the bytes written minus the
    bytes read, and moves each cursor by its total, modulo 2^32. *)
Lemma run_conservation cs :
  forall r W R,
    rb_inv r -> calls_ok r cs ->
    rb_inv (fst (fst (run r cs W R)))
    /\ W <= snd (fst (run r cs W R)) /\ R <= snd (run r cs W R)
    /\ rb_avail (fst (fst (run r cs W R))) - rb_avail r
       = (snd (fst (run r cs W R)) - W) - (snd (run r cs W R) - R)
    /\ r_in (fst (fst (run r cs W R)))
       = u32 (r_in r + (snd (fst (run r cs W R)) - W))
    /\ r_out (fst (fst (run r cs W R)))
       = u32 (r_out r + (snd (run r cs W R) - R)).
Proof.
  induction cs as [|c cs IH]; intros r W R Hinv Hok.
  - cbn [run fst snd]. rewrite !Z.sub_diag, !Z.add_0_r.
    rewrite (u32_id _ (inv_in r Hinv)), (u32_id _ (inv_out r Hinv)).
    split; [assumption|]. repeat split; lia.
  - destruct Hok as [Hc Hok].
    destruct c as [buf len|buf len|buf len]; cbn [call_ok exec] in *;
      destruct Hc as [Hlen Hbuf]; cbn [run].
    + destruct (rb_in_spec r buf len Hinv Hlen Hbuf) as (E & Hi & Ha & _).
      rewrite E.
      set (n := min len (rb_unused r)) in *.
      set (r1 := snd (rb_in r buf len)) in *.
      assert (Hn : 0 <= n).
      { subst n. rewrite min_spec.
        pose proof (u32_range (r_size r - u32 (r_in r - r_out r))) as Hu.
        fold (rb_unused r) in Hu. unfold is_u32 in *. lia. }
      destruct (IH r1 (W + n) R Hi Hok) as (Hi' & HW & HR & Hav & Hin & Hout).
      split; [assumption|]. repeat split; try lia.
      * rewrite Hin. subst r1. unfold rb_in. proj_simpl. fold n.
        unfold u32. rewrite Zplus_mod_idemp_l. f_equal. lia.
      * rewrite Hout. reflexivity.
    + destruct (rb_out_spec r buf len Hinv Hlen Hbuf) as (E & Hi & Ha & _).
      rewrite E.
      set (n := min len (rb_avail r)) in *.
      set (r1 := snd (fst (rb_out r buf len))) in *.
      assert (Hn : 0 <= n).
      { subst n. rewrite min_spec. pose proof (inv_avail_range r Hinv).
        unfold is_u32 in Hlen. lia. }
      destruct (IH r1 W (R + n) Hi Hok) as (Hi' & HW & HR & Hav & Hin & Hout).
      split; [assumption|]. repeat split; try lia.
      * rewrite Hin. reflexivity.
      * rewrite Hout. subst r1. unfold rb_out. proj_simpl. fold n.
        unfold u32. rewrite Zplus_mod_idemp_l. f_equal. lia.
    + rewrite rb_peek_rb_out. apply (IH r W R Hinv Hok).
Qed.

(** C7 (conservation under cursor wrap-around): start from any state of
    the invariant [rb_inv] (every reachable state is one, by
    [reachable_inv]) in which the buffer is empty, wherever its cursors are
    in [0, 2^32), and run any sequence of calls.  With [W] the sum of the
    values [rb_in] returned and [R] the sum of the values [rb_out] returned
    (integers that do not wrap), [R <= W], the occupancy is [W - R], and
    the cursors have moved by [W] and [R] modulo 2^32. *)
Theorem conservation r cs :
  rb_inv r -> rb_is_empty r = 1 -> calls_ok r cs ->
  snd (run r cs 0 0) <= snd (fst (run r cs 0 0))
  /\ rb_avail (fst (fst (run r cs 0 0)))
     = snd (fst (run r cs 0 0)) - snd (run r cs 0 0)
  /\ r_in (fst (fst (run r cs 0 0))) = u32 (r_in r + snd (fst (run r cs 0 0)))
  /\ r_out (fst (fst (run r cs 0 0))) = u32 (r_out r + snd (run r cs 0 0)).
Proof.
  intros Hinv Hempty Hok.
  destruct (run_conservation cs r 0 0 Hinv Hok)
    as (Hi' & HW & HR & Hav & Hin & Hout).
  assert (Ha0 : rb_avail r = 0).
  { unfold rb_is_empty in Hempty. unfold rb_avail.
    destruct (Z.eqb_spec (r_in r) (r_out r)) as [E|NE]; [|discriminate].
    rewrite E, Z.sub_diag. reflexivity. }
  pose proof (inv_avail_range _ Hi') as Hr.
  rewrite !Z.sub_0_r in *.
  repeat split; try assumption; lia.
Qed.

Lemma conservation_witness :
  snd (run Wrapping.r0 Wrapping.calls 0 0)
  <= snd (fst (run Wrapping.r0 Wrapping.calls 0 0))
  /\ rb_avail (fst (fst (run Wrapping.r0 Wrapping.calls 0 0)))
     = snd (fst (run Wrapping.r0 Wrapping.calls 0 0))
       - snd (run Wrapping.r0 Wrapping.calls 0 0)
  /\ r_in (fst (fst (run Wrapping.r0 Wrapping.calls 0 0)))
     = u32 (r_in Wrapping.r0 + snd (fst (run Wrapping.r0 Wrapping.calls 0 0)))
  /\ r_out (fst (fst (run Wrapping.r0 Wrapping.calls 0 0)))
     = u32 (r_out Wrapping.r0 + snd (run Wrapping.r0 Wrapping.calls 0 0)).
Proof.
  apply (conservation Wrapping.r0 Wrapping.calls).
  - exact wrapping_inv.
  - reflexivity.
  - exact wrapping_calls_ok.
Defined.

(** The run of the witness: ten bytes written, five read, and both cursors
    past 2^32. *)
Example wrapping_run :
  run Wrapping.r0 Wrapping.calls 0 0
  = (mk_ringbuffer 6 1 7 8 1 [x05; x06; x07; x08; x09; x0a; x03; x04], 10, 5).
Proof. vm_compute. reflexivity. Qed.

(** ** Peek and round trip *)

Lemma min_l a b : a <= b -> min a b = a.
Proof. intros. rewrite min_spec. lia. Qed.

Lemma skipn_app_exact (l1 l2 : list byte) n :
  length l1 = n -> skipn n (l1 ++ l2) = l2.
Proof.
  intros <-. rewrite skipn_app, skipn_all, Nat.sub_diag. reflexivity.
Qed.

(** C6 (Peek is a non-destructive Read): in every reachable state
    [rb_peek] returns the struct it was given, so the read cursor and the
    occupancy are unchanged; the block it leaves is the block [rb_out]
    leaves for the same arguments, whose first [min len (rb_avail r)] bytes
    (the count [rb_out] returns) are the oldest bytes of the queue and whose
    other bytes are untouched; and peeking again with the same arguments
    gives the same block. *)
Theorem peek_nondestructive bk r buf len :
  reachable bk r -> is_u32 len ->
  min len (rb_avail r) <= Z.of_nat (length buf) ->
  fst (rb_peek r buf len) = r
  /\ snd (rb_peek r buf len) = snd (rb_out r buf len)
  /\ fst (fst (rb_out r buf len)) = min len (rb_avail r)
  /\ snd (rb_peek r buf len)
     = firstn (Z.to_nat (min len (rb_avail r))) (contents r)
         ++ skipn (Z.to_nat (min len (rb_avail r))) buf
  /\ rb_peek r (snd (rb_peek r buf len)) len = rb_peek r buf len
  /\ rb_avail (fst (rb_peek r buf len)) = rb_avail r.
Proof.
  intros Hr Hlen Hbuf. pose proof (reachable_inv bk r Hr) as Hinv.
  pose proof (rb_peek_spec r buf len Hinv Hlen Hbuf) as E.
  cbv zeta in E.
  set (n := min len (rb_avail r)) in *.
  assert (Hn : 0 <= n <= rb_avail r).
  { subst n. rewrite min_spec. pose proof (inv_avail_range r Hinv).
    unfold is_u32 in Hlen. lia. }
  assert (Hl : length (firstn (Z.to_nat n) (contents r)) = Z.to_nat n).
  { rewrite length_firstn, (contents_length r Hinv). lia. }
  split; [reflexivity|]. split; [reflexivity|]. split; [reflexivity|].
  split; [rewrite E; reflexivity|]. split; [|reflexivity].
  rewrite E. cbn [snd].
  rewrite rb_peek_spec; [|exact Hinv|exact Hlen|].
  - fold n. rewrite (skipn_app_exact _ _ _ Hl). reflexivity.
  - fold n. rewrite length_app, Hl, length_skipn. lia.
Qed.

Lemma peek_nondestructive_witness :
  fst (rb_peek (snd Scenario.r4) (repeat x00 6) 8) = snd Scenario.r4
  /\ snd (rb_peek (snd Scenario.r4) (repeat x00 6) 8)
     = snd (rb_out (snd Scenario.r4) (repeat x00 6) 8)
  /\ fst (fst (rb_out (snd Scenario.r4) (repeat x00 6) 8))
     = min 8 (rb_avail (snd Scenario.r4))
  /\ snd (rb_peek (snd Scenario.r4) (repeat x00 6) 8)
     = firstn (Z.to_nat (min 8 (rb_avail (snd Scenario.r4))))
              (contents (snd Scenario.r4))
         ++ skipn (Z.to_nat (min 8 (rb_avail (snd Scenario.r4))))
                  (repeat x00 6)
  /\ rb_peek (snd Scenario.r4)
             (snd (rb_peek (snd Scenario.r4) (repeat x00 6) 8)) 8
     = rb_peek (snd Scenario.r4) (repeat x00 6) 8
  /\ rb_avail (fst (rb_peek (snd Scenario.r4) (repeat x00 6) 8))
     = rb_avail (snd Scenario.r4).
Proof.
  apply (peek_nondestructive Scenario.bk8).
  - exact scenario_reachable_r4.
  - u32_literal.
  - vm_compute. discriminate.
Defined.

(** The peek of the witness goes round the end of the store. *)
Example peek_straddles :
  rb_peek (snd Scenario.r4) (repeat x00 6) 8
  = (snd Scenario.r4, [x06; x07; x08; x09; x0a; x00])
  /\ Z.land (r_out (snd Scenario.r4)) (r_mask (snd Scenario.r4)) = 5.
Proof. split; reflexivity. Qed.

(** C1 as stated fails: the buffer is a queue, so a read that follows a
    write returns the oldest unread bytes.  In the reachable state [r1] of
    the scenario (six bytes queued, two free) the two bytes [07 08] are
    written in full, and the read of two bytes that follows returns
    [01 02]. *)
Lemma round_trip_counterexample :
  reachable Scenario.bk8 (snd Scenario.r1)
  /\ Z.of_nat (length [x07; x08]) <= rb_unused (snd Scenario.r1)
  /\ fst (rb_in (snd Scenario.r1) [x07; x08] 2) = 2
  /\ rb_out (snd (rb_in (snd Scenario.r1) [x07; x08] 2)) [x00; x00] 2
     = (2, mk_ringbuffer 8 2 7 8 1 [x01; x02; x03; x04; x05; x06; x07; x08],
        [x01; x02])
  /\ [x01; x02] <> [x07; x08].
Proof.
  split; [exact scenario_reachable_r1|].
  split; [vm_compute; discriminate|].
  split; [reflexivity|]. split; [reflexivity|]. discriminate.
Qed.

(** C1, amended (round trip): in every reachable state, a byte sequence
    [S] no longer than the free space is written in full ([rb_in] returns
    its length); once the consumer has taken the bytes that were queued
    before it ([rb_out] of [rb_avail r] bytes returns that count), a read of
    [length S] bytes returns [length S] and puts exactly [S] at the front of
    the caller's block, the rest of the block untouched.  Nothing is
    assumed on where the cursors are, so the copies may go round the end of
    the store; when the buffer is empty before the write, the middle read
    transfers nothing. *)
Theorem round_trip bk r S old buf :
  reachable bk r ->
  Z.of_nat (length S) <= rb_unused r ->
  rb_avail r <= Z.of_nat (length old) ->
  (length S <= length buf)%nat ->
  write_drain_read r S old buf
  = (Z.of_nat (length S), rb_avail r, Z.of_nat (length S),
     S ++ skipn (length S) buf).
Proof.
  intros Hr HS Hold Hbuf. pose proof (reachable_inv bk r Hr) as Hinv.
  pose proof (inv_avail_range r Hinv) as Ha.
  pose proof (inv_size_range r Hinv) as Hs.
  pose proof (inv_unused r Hinv) as Hu.
  assert (HlenS : is_u32 (Z.of_nat (length S)))
    by (unfold is_u32, modulus in *; lia).
  assert (Hav : is_u32 (rb_avail r)) by apply u32_range.
  unfold write_drain_read.
  destruct (rb_in_spec r S (Z.of_nat (length S)) Hinv HlenS)
    as (E1 & Hi1 & Ha1 & Hc1).
  { rewrite min_l by exact HS. lia. }
  rewrite min_l in * by exact HS.
  rewrite Nat2Z.id, firstn_all in Hc1.
  rewrite E1. set (r1 := snd (rb_in r S (Z.of_nat (length S)))) in *.
  destruct (rb_out_spec r1 old (rb_avail r) Hi1 Hav) as (E2 & Hi2 & Ha2 & Hc2).
  { rewrite min_l by lia. exact Hold. }
  rewrite min_l in * by lia.
  rewrite Hc1, (skipn_app_exact _ _ _ (contents_length r Hinv)) in Hc2.
  rewrite E2. set (r2 := snd (fst (rb_out r1 old (rb_avail r)))) in *.
  destruct (rb_out_spec r2 buf (Z.of_nat (length S)) Hi2 HlenS)
    as (E3 & _).
  { rewrite min_l by lia. lia. }
  rewrite min_l in * by lia.
  rewrite Hc2, Nat2Z.id, firstn_all in E3.
  rewrite E3. reflexivity.
Qed.

Lemma round_trip_witness :
  write_drain_read (snd (fst Scenario.rs)) [x0a; x0b; x0c; x0d; x0e]
                   (repeat x00 2) (repeat x00 6)
  = (Z.of_nat (length [x0a; x0b; x0c; x0d; x0e]),
     rb_avail (snd (fst Scenario.rs)),
     Z.of_nat (length [x0a; x0b; x0c; x0d; x0e]),
     [x0a; x0b; x0c; x0d; x0e]
       ++ skipn (length [x0a; x0b; x0c; x0d; x0e]) (repeat x00 6)).
Proof.
  apply (round_trip Scenario.bk8).
  - exact scenario_reachable_rs.
  - vm_compute. discriminate.
  - vm_compute. discriminate.
  - cbn. lia.
Defined.

(** The write of the witness starts at offset 6 of a store of 8 bytes and
    ends at offset 2. *)
Example write_straddles :
  rb_in (snd (fst Scenario.rs)) [x0a; x0b; x0c; x0d; x0e] 5
  = (5, mk_ringbuffer 11 4 7 8 1 [x0c; x0d; x0e; x04; x05; x06; x0a; x0b])
  /\ Z.land (r_in (snd (fst Scenario.rs))) (r_mask (snd (fst Scenario.rs)))
     = 6.
Proof. split; reflexivity. Qed.

(** ** Capacity zero *)

Lemma not_pow2_zero : ~ is_pow2 0.
Proof.
  intros [k [Hk E]]. pose proof (Z.pow_pos_nonneg 2 k). lia.
Qed.

(** C4 at the failing input.  The test [(r->size & (r->size - 1)) != 0] of
    the static build does not reject 0: with a store of 256 bytes,
    [rb_init(r, 1, 257)] returns 0 and leaves [size = 0], which is no power
    of two, and [mask = 0xFFFFFFFF].  In the dynamic build [esize * len]
    wraps: [rb_init(r, 65536, 65536)] asks [malloc] for 0 bytes and, when
    that returns a block, succeeds with [size = 0] as well. *)
Lemma rb_init_zero_capacity :
  rb_init Degenerate.bk256 (Some Degenerate.blank) 1 257
  = (0, Some (mk_ringbuffer 0 0 4294967295 0 257 (repeat x00 256)))
  /\ 256 / 257 = 0
  /\ ~ is_pow2 (rb_size Degenerate.r0)
  /\ rb_init Dynamic.bk (Some Dynamic.blank) 65536 65536
     = (0, Some (mk_ringbuffer 0 0 4294967295 0 65536 [])).
Proof.
  split; [reflexivity|]. split; [reflexivity|].
  split; [exact not_pow2_zero|reflexivity].
Qed.

(** C2 at the failing input.  The buffer of capacity 0 that [rb_init]
    lets through has no free byte; a write of [rb_unused] (= 0) bytes
    returns 0, and [rb_is_full] is still 0 afterwards, because the
    occupancy 0 is not above the mask [0xFFFFFFFF]. *)
Lemma full_boundary_zero_capacity :
  reachable Degenerate.bk256 Degenerate.r0
  /\ rb_unused Degenerate.r0 = 0
  /\ rb_in Degenerate.r0 [] (rb_unused Degenerate.r0) = (0, Degenerate.r0)
  /\ rb_is_full (snd (rb_in Degenerate.r0 [] (rb_unused Degenerate.r0))) = 0.
Proof.
  split; [exact degenerate_reachable|]. repeat split.
Qed.

(** C5 at the failing input.  In the buffer of capacity 0 the occupancy
    equals the capacity, and [rb_is_full] returns 0. *)
Lemma is_full_zero_capacity :
  reachable Degenerate.bk256 Degenerate.r0
  /\ rb_avail Degenerate.r0 = rb_size Degenerate.r0
  /\ r_mask Degenerate.r0 = 4294967295
  /\ rb_is_full Degenerate.r0 = 0.
Proof.
  split; [exact degenerate_reachable|]. repeat split.
Qed.

(** ** What holds of the capacity, and when it is not zero *)

(** When [rb_init] returns 0, the capacity is 0 or a power of two, at most
    2^31, in both builds. *)
Theorem rb_init_size bk r0 len esize r :
  struct_ok bk r0 -> is_u32 esize ->
  rb_init bk (Some r0) len esize = (0, Some r) ->
  rb_size r = 0 \/ exists k, 0 <= k <= 31 /\ rb_size r = 2 ^ k.
Proof.
  intros Hok Hes Hinit.
  destruct (rb_init_inv bk r0 len esize r Hok Hes Hinit) as [Hinv _].
  apply (inv_size r Hinv).
Qed.

Lemma rb_init_size_witness :
  rb_size Scenario.r0 = 0
  \/ exists k, 0 <= k <= 31 /\ rb_size Scenario.r0 = 2 ^ k.
Proof.
  apply (rb_init_size Scenario.bk8 Scenario.blank 8 1);
    [reflexivity | u32_literal | reflexivity].
Defined.

(** In the static build [rb_init] returns -1 when the quotient
    [RB_BUF_LEN / esize] is neither 0 nor a power of two. *)
Theorem rb_init_static_rejects L r0 len esize :
  u32 (L / esize) <> 0 -> ~ is_pow2 (u32 (L / esize)) ->
  fst (rb_init (static_backing L) (Some r0) len esize) = -1.
Proof.
  intros Hnz Hnp. unfold rb_init.
  destruct ((len =? 0) || (esize =? 0)); [reflexivity|].
  proj_simpl. set (s := u32 (L / esize)) in *.
  destruct (Z.eqb_spec (Z.land s (u32 (s - 1))) 0) as [E|NE];
    [exfalso|reflexivity].
  pose proof (u32_range (L / esize)) as Hs. fold s in Hs.
  rewrite u32_id in E by (unfold is_u32, modulus in *; lia).
  apply Hnp. apply land_pred_zero; [unfold is_u32 in Hs; lia|exact E].
Qed.

Lemma rb_init_static_rejects_witness :
  fst (rb_init (static_backing 24) (Some Scenario.blank) 4 2) = -1.
Proof.
  apply rb_init_static_rejects.
  - vm_compute. discriminate.
  - change (u32 (24 / 2)) with 12. intros [k [Hk E]].
    assert (Hk3 : k <= 3).
    { destruct (Z.le_gt_cases k 3) as [H|H]; [exact H|exfalso].
      assert (2 ^ 4 <= 2 ^ k) by (apply Z.pow_le_mono_r; lia). lia. }
    assert (Hc : k = 0 \/ k = 1 \/ k = 2 \/ k = 3) by lia.
    destruct Hc as [-> | [-> | [-> | ->]]]; discriminate.
Defined.

Lemma u32_sub_zero a b : is_u32 a -> is_u32 b -> u32 (a - b) = 0 -> a = b.
Proof.
  unfold is_u32, u32, modulus. intros Ha Hb E.
  destruct (Z.lt_ge_cases a b) as [Hlt|Hge].
  - replace (a - b) with ((a - b + 2 ^ 32) + (-1) * 2 ^ 32) in E by lia.
    rewrite Z.mod_add, Z.mod_small in E by lia. lia.
  - rewrite Z.mod_small in E by lia. lia.
Qed.

(** [rb_is_full] on a buffer of nonzero capacity: the occupancy is above
    the mask exactly when it equals the capacity. *)
Theorem is_full_iff bk r :
  reachable bk r -> 0 < rb_size r ->
  (rb_is_full r = 1 <-> rb_avail r = rb_size r).
Proof.
  intros Hr Hpos. pose proof (reachable_inv bk r Hr) as Hinv.
  pose proof (inv_avail_range r Hinv) as Ha.
  pose proof (inv_size_range r Hinv) as Hs.
  unfold rb_is_full, rb_size in *. rewrite Z.gtb_ltb, (inv_mask r Hinv).
  rewrite u32_id by (unfold is_u32, modulus in *; lia).
  destruct (Z.ltb_spec (r_size r - 1) (rb_avail r)); split; intros; lia.
Qed.

Lemma is_full_iff_witness :
  rb_is_full (snd Scenario.r2) = 1
  <-> rb_avail (snd Scenario.r2) = rb_size (snd Scenario.r2).
Proof.
  apply (is_full_iff Scenario.bk8).
  - exact scenario_reachable_r2.
  - vm_compute. reflexivity.
Defined.

(** Clamping and the full and empty boundaries.  In every reachable
    state [rb_in] returns [min len (rb_unused r)] and [rb_out] returns
    [min len (rb_avail r)]; after a write of exactly [rb_unused r] bytes
    every further write returns 0 and changes nothing, and [rb_is_full]
    is 1 provided the capacity is not 0; after a read of exactly
    [rb_avail r] bytes [rb_is_empty] is 1 and every further read returns 0
    and changes nothing. *)
Theorem clamp_and_boundary bk r :
  reachable bk r ->
  (forall buf len, fst (rb_in r buf len) = Z.min len (rb_unused r))
  /\ (forall buf len, fst (fst (rb_out r buf len)) = Z.min len (rb_avail r))
  /\ (forall buf, rb_unused r <= Z.of_nat (length buf) ->
        (0 < rb_size r ->
         rb_is_full (snd (rb_in r buf (rb_unused r))) = 1)
        /\ forall buf' len', is_u32 len' ->
             rb_in (snd (rb_in r buf (rb_unused r))) buf' len'
             = (0, snd (rb_in r buf (rb_unused r))))
  /\ (forall buf, rb_avail r <= Z.of_nat (length buf) ->
        rb_is_empty (snd (fst (rb_out r buf (rb_avail r)))) = 1
        /\ forall buf' len', is_u32 len' ->
             rb_out (snd (fst (rb_out r buf (rb_avail r)))) buf' len'
             = (0, snd (fst (rb_out r buf (rb_avail r))), buf')).
Proof.
  intros Hr. pose proof (reachable_inv bk r Hr) as Hinv.
  pose proof (inv_avail_range r Hinv) as Ha.
  pose proof (inv_size_range r Hinv) as Hs.
  pose proof (inv_unused r Hinv) as Hu.
  split; [intros; apply min_spec|]. split; [intros; apply min_spec|].
  split.
  - intros buf Hbuf.
    assert (Hul : is_u32 (rb_unused r)) by apply u32_range.
    destruct (rb_in_spec r buf (rb_unused r) Hinv Hul) as (_ & Hi & Hav & _).
    { rewrite min_l by lia. exact Hbuf. }
    rewrite min_l in Hav by lia.
    set (r' := snd (rb_in r buf (rb_unused r))) in *.
    assert (Es : r_size r' = r_size r) by reflexivity.
    split.
    + intros Hpos. unfold rb_is_full, rb_size in *.
      rewrite Z.gtb_ltb, (inv_mask r' Hi), Es.
      rewrite u32_id by (unfold is_u32, modulus in *; lia).
      destruct (Z.ltb_spec (r_size r - 1) (rb_avail r')); [reflexivity|lia].
    + intros buf' len' Hlen'. apply rb_in_nothing; [apply (inv_in r' Hi)|].
      rewrite min_spec, (inv_unused r' Hi), Es.
      unfold is_u32 in Hlen'. lia.
  - intros buf Hbuf.
    assert (Hal : is_u32 (rb_avail r)) by apply u32_range.
    destruct (rb_out_spec r buf (rb_avail r) Hinv Hal) as (_ & Hi & Hav & _).
    { rewrite min_l by lia. exact Hbuf. }
    rewrite min_l in Hav by lia.
    set (r' := snd (fst (rb_out r buf (rb_avail r)))) in *.
    split.
    + unfold rb_is_empty.
      rewrite (u32_sub_zero (r_in r') (r_out r') (inv_in r' Hi)
                 (inv_out r' Hi)); [rewrite Z.eqb_refl; reflexivity|].
      fold (rb_avail r'). lia.
    + intros buf' len' Hlen'. apply rb_out_nothing; [apply (inv_out r' Hi)|].
      rewrite min_spec. unfold is_u32 in Hlen'. lia.
Qed.

Lemma clamp_and_boundary_witness :
  (forall buf len,
      fst (rb_in (snd Scenario.r1) buf len)
      = Z.min len (rb_unused (snd Scenario.r1)))
  /\ (forall buf len,
         fst (fst (rb_out (snd Scenario.r1) buf len))
         = Z.min len (rb_avail (snd Scenario.r1)))
  /\ rb_is_full (snd (rb_in (snd Scenario.r1) [x07; x08]
                        (rb_unused (snd Scenario.r1)))) = 1
  /\ rb_is_empty (snd (fst (rb_out (snd Scenario.r1) (repeat x00 6)
                              (rb_avail (snd Scenario.r1))))) = 1.
Proof.
  destruct (clamp_and_boundary Scenario.bk8 (snd Scenario.r1)
              scenario_reachable_r1) as (Hw & Hr & Hfull & Hempty).
  split; [exact Hw|]. split; [exact Hr|]. split.
  - apply (Hfull [x07; x08]); vm_compute; [discriminate|reflexivity].
  - apply (Hempty (repeat x00 6)). vm_compute. discriminate.
Defined.

(** ** The queue the calls implement *)

(** [rb_in] appends to the queue the bytes it reports written. *)
Theorem rb_in_fifo bk r buf len :
  reachable bk r -> call_ok r (Write buf len) ->
  fst (rb_in r buf len) = min len (rb_unused r)
  /\ contents (snd (rb_in r buf len))
     = contents r ++ firstn (Z.to_nat (min len (rb_unused r))) buf.
Proof.
  intros Hr [Hlen Hbuf]. pose proof (reachable_inv bk r Hr) as Hinv.
  destruct (rb_in_spec r buf len Hinv Hlen Hbuf) as (_ & _ & _ & Hc).
  split; [reflexivity|exact Hc].
Qed.

Lemma rb_in_fifo_witness :
  fst (rb_in (snd (fst Scenario.rs)) [x0a; x0b; x0c] 3)
  = min 3 (rb_unused (snd (fst Scenario.rs)))
  /\ contents (snd (rb_in (snd (fst Scenario.rs)) [x0a; x0b; x0c] 3))
     = contents (snd (fst Scenario.rs))
         ++ firstn (Z.to_nat (min 3 (rb_unused (snd (fst Scenario.rs)))))
                   [x0a; x0b; x0c].
Proof.
  apply (rb_in_fifo Scenario.bk8).
  - exact scenario_reachable_rs.
  - split; [u32_literal | vm_compute; discriminate].
Defined.

(** [rb_out] takes the bytes it reports read off the front of the queue and
    puts them, in order, at the front of the caller's block. *)
Theorem rb_out_fifo bk r buf len :
  reachable bk r -> call_ok r (Read buf len) ->
  fst (fst (rb_out r buf len)) = min len (rb_avail r)
  /\ snd (rb_out r buf len)
     = firstn (Z.to_nat (min len (rb_avail r))) (contents r)
         ++ skipn (Z.to_nat (min len (rb_avail r))) buf
  /\ contents (snd (fst (rb_out r buf len)))
     = skipn (Z.to_nat (min len (rb_avail r))) (contents r).
Proof.
  intros Hr [Hlen Hbuf]. pose proof (reachable_inv bk r Hr) as Hinv.
  destruct (rb_out_spec r buf len Hinv Hlen Hbuf) as (E & _ & _ & Hc).
  split; [reflexivity|]. split; [rewrite E; reflexivity|exact Hc].
Qed.

Lemma rb_out_fifo_witness :
  fst (fst (rb_out (snd Scenario.r4) (repeat x00 4) 4))
  = min 4 (rb_avail (snd Scenario.r4))
  /\ snd (rb_out (snd Scenario.r4) (repeat x00 4) 4)
     = firstn (Z.to_nat (min 4 (rb_avail (snd Scenario.r4))))
              (contents (snd Scenario.r4))
         ++ skipn (Z.to_nat (min 4 (rb_avail (snd Scenario.r4))))
                  (repeat x00 4)
  /\ contents (snd (fst (rb_out (snd Scenario.r4) (repeat x00 4) 4)))
     = skipn (Z.to_nat (min 4 (rb_avail (snd Scenario.r4))))
             (contents (snd Scenario.r4)).
Proof.
  apply (rb_out_fifo Scenario.bk8).
  - exact scenario_reachable_r4.
  - split; [u32_literal | vm_compute; discriminate].
Defined.

Example contents_r4 :
  contents (snd Scenario.r4) = [x06; x07; x08; x09; x0a].
Proof. reflexivity. Qed.

(** ** More on initialisation *)

(** Static build, whatever [RB_BUF_LEN] is: an element size above it makes
    the quotient 0, and [rb_init] returns 0 with capacity 0. *)
Theorem rb_init_static_zero L r0 len esize :
  0 <= L < esize -> len <> 0 ->
  rb_init (static_backing L) (Some r0) len esize
  = (0, Some (mk_ringbuffer 0 0 4294967295 0 esize (r_data r0))).
Proof.
  intros HL Hlen. unfold rb_init.
  assert (E : (len =? 0) || (esize =? 0) = false).
  { apply orb_false_intro; apply Z.eqb_neq; lia. }
  rewrite E. proj_simpl. rewrite Z.div_small by exact HL. reflexivity.
Qed.

Lemma rb_init_static_zero_witness :
  rb_init (static_backing 1024) (Some Scenario.blank) 16 2000
  = (0, Some (mk_ringbuffer 0 0 4294967295 0 2000 (r_data Scenario.blank))).
Proof. apply rb_init_static_zero; lia. Defined.

(** Static build: a quotient that is a power of two is accepted and becomes
    the capacity. *)
Theorem rb_init_static_accepts L r0 len esize k :
  len <> 0 -> esize <> 0 -> 0 <= k <= 31 -> L / esize = 2 ^ k ->
  rb_init (static_backing L) (Some r0) len esize
  = (0, Some (mk_ringbuffer 0 0 (2 ^ k - 1) (2 ^ k) esize (r_data r0))).
Proof.
  intros Hlen Hes Hk Hq. unfold rb_init.
  assert (E : (len =? 0) || (esize =? 0) = false).
  { apply orb_false_intro; apply Z.eqb_neq; assumption. }
  rewrite E. proj_simpl. rewrite Hq.
  pose proof (pow2_le_modulus k Hk) as Hp.
  rewrite !(u32_id (2 ^ k)) by (unfold is_u32; lia).
  rewrite !(u32_id (2 ^ k - 1)) by (unfold is_u32; lia).
  rewrite pow2_land_pred by lia. reflexivity.
Qed.

Lemma rb_init_static_accepts_witness :
  rb_init (static_backing 1024) (Some Scenario.blank) 3 4
  = (0, Some (mk_ringbuffer 0 0 (2 ^ 8 - 1) (2 ^ 8) 4 (r_data Scenario.blank))).
Proof.
  apply rb_init_static_accepts; try lia. reflexivity.
Defined.

(** *** [roundup_pow_of_two] *)

Lemma u32_s32 x : u32 (s32 x) = u32 x.
Proof.
  unfold s32. destruct (u32 x <? 2 ^ 31).
  - unfold u32. apply Z.mod_mod. unfold modulus. lia.
  - unfold u32.
    replace (x mod modulus - modulus) with (x mod modulus + (-1) * modulus)
      by lia.
    rewrite Z.mod_add by (unfold modulus; lia).
    apply Z.mod_mod. unfold modulus. lia.
Qed.

(** The test [(len & mask) == mask] for [mask = 1 << i], on a [len] below
    [2^(i+1)]: it holds exactly when [len] is at least [2^i]. *)
Lemma land_pow2_top v i :
  0 <= i -> 0 <= v < 2 ^ (i + 1) ->
  Z.land v (2 ^ i) = if 2 ^ i <=? v then 2 ^ i else 0.
Proof.
  intros Hi Hv.
  pose proof (Z.pow_pos_nonneg 2 i ltac:(lia) Hi) as Hp.
  assert (E2 : 2 ^ (i + 1) = 2 * 2 ^ i) by (rewrite Z.pow_add_r; lia).
  assert (Hbit : Z.testbit v i = (2 ^ i <=? v)).
  { rewrite Z.testbit_eqb by exact Hi.
    destruct (Z.leb_spec (2 ^ i) v) as [Hge|Hlt].
    - replace v with ((v - 2 ^ i) + 1 * 2 ^ i) by lia.
      rewrite Z.div_add, Z.div_small by lia. reflexivity.
    - rewrite Z.div_small by lia. reflexivity. }
  apply Z.bits_inj'. intros n Hn.
  rewrite Z.land_spec, Z.pow2_bits_eqb by exact Hi.
  destruct (Z.eqb_spec i n) as [<-|Hne].
  - rewrite Hbit. destruct (2 ^ i <=? v).
    + rewrite Z.pow2_bits_true by exact Hi. reflexivity.
    + rewrite Z.bits_0. reflexivity.
  - rewrite andb_false_r. destruct (2 ^ i <=? v).
    + rewrite Z.pow2_bits_false by lia. reflexivity.
    + rewrite Z.bits_0. reflexivity.
Qed.

(** The loop stops at the highest set bit of [len]. *)
Lemma roundup_scan_log2 k :
  forall len mask0,
    (k <= 32)%nat -> 0 < len < 2 ^ Z.of_nat k ->
    roundup_scan k len mask0 = s32 (Z.shiftl 1 (Z.log2 len)).
Proof.
  induction k as [|i IH]; intros len mask0 Hk Hlen.
  - change (2 ^ Z.of_nat 0) with 1 in Hlen. lia.
  - cbn [roundup_scan].
    rewrite u32_s32, Z.shiftl_1_l.
    assert (Hi : 0 <= Z.of_nat i <= 31) by lia.
    pose proof (pow2_le_modulus _ Hi) as Hp.
    rewrite (u32_id (2 ^ Z.of_nat i)) by (unfold is_u32; lia).
    replace (Z.of_nat (S i)) with (Z.of_nat i + 1) in Hlen by lia.
    rewrite land_pow2_top by lia.
    destruct (Z.leb_spec (2 ^ Z.of_nat i) len) as [Hge|Hlt].
    + rewrite Z.eqb_refl. rewrite <- Z.shiftl_1_l. do 2 f_equal.
      symmetry. apply Z.log2_unique; lia.
    + destruct (Z.eqb_spec 0 (2 ^ Z.of_nat i)) as [E0|_]; [lia|].
      apply IH; lia.
Qed.

Lemma roundup_shift_value (i : nat) :
  (i < 32)%nat ->
  u32 (s32 (Z.shiftl (s32 (Z.shiftl 1 (Z.of_nat i))) 1))
  = u32 (2 ^ (Z.of_nat i + 1)).
Proof.
  intros Hi. do 32 (destruct i as [|i]; [reflexivity|]). lia.
Qed.

(** [roundup_pow_of_two] on a value from 1 to 2^31: the least power of two
    that is not below it.  Above 2^31 there is no such [uint32_t], and the
    function returns 0. *)
Theorem roundup_pow_of_two_next v :
  0 < v < modulus ->
  (v <= 2 ^ 31 ->
   exists k, 0 <= k <= 31 /\ roundup_pow_of_two v = 2 ^ k
             /\ v <= 2 ^ k < 2 * v)
  /\ (2 ^ 31 < v -> roundup_pow_of_two v = 0).
Proof.
  intros Hv. unfold roundup_pow_of_two.
  rewrite (u32_id (v - 1)) by (unfold is_u32; lia).
  pose proof (Z.log2_spec v ltac:(lia)) as [Hlo Hhi].
  pose proof (Z.log2_nonneg v) as Hj.
  assert (Hj31 : Z.log2 v <= 31).
  { destruct (Z.le_gt_cases (Z.log2 v) 31) as [H|H]; [exact H|exfalso].
    assert (2 ^ 32 <= 2 ^ Z.log2 v) by (apply Z.pow_le_mono_r; lia).
    unfold modulus in Hv. lia. }
  destruct (Z.eqb_spec (Z.land v (v - 1)) 0) as [E|NE].
  - destruct (land_pred_zero v ltac:(lia) E) as [k [Hk Ek]].
    assert (Hk31 : k <= 31).
    { destruct (Z.le_gt_cases k 31) as [H|H]; [exact H|exfalso].
      assert (2 ^ 32 <= 2 ^ k) by (apply Z.pow_le_mono_r; lia).
      unfold modulus in Hv. lia. }
    split.
    + intros _. exists k. repeat split; lia.
    + intros Hbig. exfalso.
      assert (2 ^ k <= 2 ^ 31) by (apply Z.pow_le_mono_r; lia). lia.
  - cbv zeta.
    assert (Hne : v <> 2 ^ Z.log2 v).
    { intros Ev. apply NE. rewrite Ev at 1 2.
      apply pow2_land_pred. exact Hj. }
    rewrite (roundup_scan_log2 32 v 0) by (change (2 ^ Z.of_nat 32) with
                                            modulus; lia).
    assert (Eval : u32 (s32 (Z.shiftl (s32 (Z.shiftl 1 (Z.log2 v))) 1))
                   = u32 (2 ^ (Z.log2 v + 1))).
    { pose proof (roundup_shift_value (Z.to_nat (Z.log2 v)) ltac:(lia)) as H.
      rewrite Z2Nat.id in H by exact Hj. exact H. }
    rewrite Eval.
    replace (Z.succ (Z.log2 v)) with (Z.log2 v + 1) in Hhi by lia.
    assert (E2 : 2 ^ (Z.log2 v + 1) = 2 * 2 ^ Z.log2 v)
      by (rewrite Z.pow_add_r; lia).
    split.
    + intros Hle.
      assert (Hj30 : Z.log2 v <= 30).
      { destruct (Z.le_gt_cases (Z.log2 v) 30) as [H|H]; [exact H|exfalso].
        assert (2 ^ 31 <= 2 ^ Z.log2 v) by (apply Z.pow_le_mono_r; lia).
        lia. }
      assert (2 ^ (Z.log2 v + 1) <= 2 ^ 31) by (apply Z.pow_le_mono_r; lia).
      exists (Z.log2 v + 1).
      rewrite u32_id by (unfold is_u32, modulus; lia).
      repeat split; lia.
    + intros Hbig.
      assert (Hj31' : Z.log2 v = 31).
      { destruct (Z.le_gt_cases (Z.log2 v) 30) as [H|H]; [exfalso|lia].
        assert (2 ^ (Z.log2 v + 1) <= 2 ^ 31)
          by (apply Z.pow_le_mono_r; lia).
        lia. }
      rewrite Hj31'. reflexivity.
Qed.

Lemma roundup_pow_of_two_next_witness :
  (100 <= 2 ^ 31 ->
   exists k, 0 <= k <= 31 /\ roundup_pow_of_two 100 = 2 ^ k
             /\ 100 <= 2 ^ k < 2 * 100)
  /\ (2 ^ 31 < 100 -> roundup_pow_of_two 100 = 0).
Proof. apply roundup_pow_of_two_next. u32_literal. Defined.

Example roundup_values :
  roundup_pow_of_two 100 = 128 /\ roundup_pow_of_two 256 = 256
  /\ roundup_pow_of_two 2147483649 = 0 /\ roundup_pow_of_two 0 = 0.
Proof. repeat split. Qed.

(** Dynamic build: when [esize * len] is at most 2^31 and [malloc] returns
    a block, the capacity is the least power of two that is not below
    [esize * len], and the store has that many bytes. *)
Theorem rb_init_dynamic_capacity malloc_ok fresh r0 len esize r :
  is_u32 len -> is_u32 esize -> esize * len <= 2 ^ 31 ->
  rb_init (dynamic_malloc malloc_ok fresh) (Some r0) len esize = (0, Some r) ->
  is_pow2 (rb_size r)
  /\ esize * len <= rb_size r < 2 * (esize * len)
  /\ Z.of_nat (length (r_data r)) = rb_size r.
Proof.
  intros Hlen Hes Hprod Hinit. unfold rb_init in Hinit.
  destruct ((len =? 0) || (esize =? 0)) eqn:Hz; [discriminate|].
  apply orb_false_elim in Hz. destruct Hz as [Hl Hz].
  apply Z.eqb_neq in Hl. apply Z.eqb_neq in Hz.
  proj_simpl.
  assert (Hpos : 0 < esize * len) by (unfold is_u32 in *; nia).
  rewrite (u32_id (esize * len)) in Hinit
    by (unfold is_u32, modulus; lia).
  destruct (malloc_ok _); [|discriminate].
  injection Hinit as <-. unfold rb_size. proj_simpl.
  destruct (roundup_pow_of_two_next (esize * len)
              ltac:(unfold modulus; lia)) as [Hnext _].
  destruct (Hnext Hprod) as [k [Hk [Ek Hb]]].
  rewrite Ek. split; [exists k; split; [lia|reflexivity]|].
  split; [exact Hb|].
  rewrite length_map, length_seq.
  pose proof (Z.pow_pos_nonneg 2 k). lia.
Qed.

Lemma rb_init_dynamic_capacity_witness :
  is_pow2 (rb_size (mk_ringbuffer 0 0 127 128 4 (repeat x00 128)))
  /\ 4 * 25 <= rb_size (mk_ringbuffer 0 0 127 128 4 (repeat x00 128))
     < 2 * (4 * 25)
  /\ Z.of_nat (length (r_data (mk_ringbuffer 0 0 127 128 4 (repeat x00 128))))
     = rb_size (mk_ringbuffer 0 0 127 128 4 (repeat x00 128)).
Proof.
  apply (rb_init_dynamic_capacity (fun _ => true) (fun _ => x00)
           Dynamic.blank 25 4);
    [u32_literal | u32_literal | lia | reflexivity].
Defined.

(** ** Round trip through an empty buffer *)

(** When the buffer is empty, a byte sequence no longer than the free space
    is written in full, and a read of the same length that follows at once
    returns exactly that sequence at the front of the caller's block. *)
Theorem round_trip_empty bk r S buf :
  reachable bk r -> rb_is_empty r = 1 ->
  Z.of_nat (length S) <= rb_unused r ->
  (length S <= length buf)%nat ->
  fst (rb_in r S (Z.of_nat (length S))) = Z.of_nat (length S)
  /\ fst (fst (rb_out (snd (rb_in r S (Z.of_nat (length S)))) buf
                 (Z.of_nat (length S))))
     = Z.of_nat (length S)
  /\ snd (rb_out (snd (rb_in r S (Z.of_nat (length S)))) buf
            (Z.of_nat (length S)))
     = S ++ skipn (length S) buf.
Proof.
  intros Hr Hempty HS Hbuf. pose proof (reachable_inv bk r Hr) as Hinv.
  pose proof (inv_size_range r Hinv) as Hs.
  pose proof (inv_unused r Hinv) as Hu.
  assert (Ha0 : rb_avail r = 0).
  { unfold rb_is_empty in Hempty. unfold rb_avail.
    destruct (Z.eqb_spec (r_in r) (r_out r)) as [E|NE]; [|discriminate].
    rewrite E, Z.sub_diag. reflexivity. }
  assert (Hc0 : contents r = []).
  { apply length_zero_iff_nil. rewrite (contents_length r Hinv), Ha0.
    reflexivity. }
  assert (HlenS : is_u32 (Z.of_nat (length S)))
    by (unfold is_u32, modulus in *; lia).
  destruct (rb_in_spec r S (Z.of_nat (length S)) Hinv HlenS)
    as (E1 & Hi1 & Ha1 & Hc1).
  { rewrite min_l by exact HS. lia. }
  rewrite min_l in * by exact HS.
  rewrite Nat2Z.id, firstn_all, Hc0 in Hc1. cbn [app] in Hc1.
  set (r1 := snd (rb_in r S (Z.of_nat (length S)))) in *.
  destruct (rb_out_spec r1 buf (Z.of_nat (length S)) Hi1 HlenS) as (E2 & _).
  { rewrite min_l by lia. lia. }
  rewrite min_l in E2 by lia.
  rewrite Hc1, Nat2Z.id, firstn_all in E2.
  rewrite E1, E2. repeat split.
Qed.

Lemma round_trip_empty_witness :
  fst (rb_in Scenario.r0 [x01; x02; x03; x04; x05; x06] 6) = 6
  /\ fst (fst (rb_out (snd (rb_in Scenario.r0
                              [x01; x02; x03; x04; x05; x06] 6))
                 (repeat x00 6) 6)) = 6
  /\ snd (rb_out (snd (rb_in Scenario.r0 [x01; x02; x03; x04; x05; x06] 6))
            (repeat x00 6) 6)
     = [x01; x02; x03; x04; x05; x06].
Proof.
  destruct (round_trip_empty Scenario.bk8 Scenario.r0
              [x01; x02; x03; x04; x05; x06] (repeat x00 6)
              scenario_reachable_r0 eq_refl)
    as (H1 & H2 & H3); [vm_compute; discriminate | cbn; lia |].
  split; [exact H1|]. split; [exact H2|exact H3].
Defined.

(** ** Streams *)

Lemma firstn_app_exact (l1 l2 : list byte) n :
  length l1 = n -> firstn n (l1 ++ l2) = l1.
Proof.
  intros <-. rewrite firstn_app, firstn_all, Nat.sub_diag.
  cbn [firstn]. apply app_nil_r.
Qed.

(** Stream integrity: run any sequence of [rb_in], [rb_out] and [rb_peek]
    calls from a state of the invariant [rb_inv] (every reachable state is
    one).  The bytes queued at the start followed by the bytes the writes
    took are, in this order, the bytes the reads delivered followed by the
    bytes still queued at the end: no byte is lost, repeated or reordered,
    wherever the cursors are. *)
Theorem stream_integrity r cs :
  rb_inv r -> calls_ok r cs ->
  contents r ++ snd (fst (run_io r cs))
  = snd (run_io r cs) ++ contents (fst (fst (run_io r cs))).
Proof.
  revert r. induction cs as [|c cs IH]; intros r Hinv Hok.
  - cbn [run_io fst snd app]. apply app_nil_r.
  - destruct Hok as [Hc Hok].
    destruct c as [buf len|buf len|buf len]; cbn [call_ok exec] in *;
      destruct Hc as [Hlen Hbuf]; cbn [run_io].
    + destruct (rb_in_spec r buf len Hinv Hlen Hbuf) as (E & Hi & _ & Hc).
      rewrite E. set (r1 := snd (rb_in r buf len)) in *.
      specialize (IH r1 Hi Hok).
      destruct (run_io r1 cs) as [[r2 w] o]. cbn [fst snd] in *.
      rewrite app_assoc, <- Hc. exact IH.
    + destruct (rb_out_spec r buf len Hinv Hlen Hbuf) as (E & Hi & _ & Hc).
      rewrite E. set (r1 := snd (fst (rb_out r buf len))) in *.
      set (n := min len (rb_avail r)) in *.
      specialize (IH r1 Hi Hok).
      destruct (run_io r1 cs) as [[r2 w] o]. cbn [fst snd] in *.
      assert (Hn : 0 <= n <= rb_avail r).
      { subst n. rewrite min_spec. pose proof (inv_avail_range r Hinv).
        unfold is_u32 in Hlen. lia. }
      rewrite firstn_app_exact
        by (rewrite length_firstn, (contents_length r Hinv); lia).
      rewrite <- app_assoc, <- IH, Hc, app_assoc, firstn_skipn.
      reflexivity.
    + rewrite rb_peek_rb_out. apply (IH r Hinv Hok).
Qed.

Lemma stream_integrity_witness :
  contents Wrapping.r0 ++ snd (fst (run_io Wrapping.r0 Wrapping.calls))
  = snd (run_io Wrapping.r0 Wrapping.calls)
      ++ contents (fst (fst (run_io Wrapping.r0 Wrapping.calls))).
Proof.
  apply (stream_integrity Wrapping.r0 Wrapping.calls).
  - exact wrapping_inv.
  - exact wrapping_calls_ok.
Defined.

Example wrapping_streams :
  run_io Wrapping.r0 Wrapping.calls
  = (mk_ringbuffer 6 1 7 8 1 [x05; x06; x07; x08; x09; x0a; x03; x04],
     [x01; x02; x03; x04; x05; x06; x07; x08; x09; x0a],
     [x01; x02; x03; x04; x05])
  /\ contents (fst (fst (run_io Wrapping.r0 Wrapping.calls)))
     = [x06; x07; x08; x09; x0a].
Proof. split; reflexivity. Qed.

(** ** Occupancy queries *)

(** The queries agree with each other in every reachable state: used and
    free bytes add up to the capacity without wrapping, [rb_is_empty] is 1
    exactly when no byte is queued (the whole capacity is free),
    [rb_is_empty] and [rb_is_full] return 0 or 1 and never both 1 (not
    even when the capacity is 0), and the queue holds [rb_avail] bytes. *)
Theorem occupancy_queries bk r :
  reachable bk r ->
  rb_avail r + rb_unused r = rb_size r
  /\ (rb_is_empty r = 1 <-> rb_avail r = 0)
  /\ (rb_is_empty r = 1 <-> rb_unused r = rb_size r)
  /\ (rb_is_empty r = 0 \/ rb_is_empty r = 1)
  /\ (rb_is_full r = 0 \/ rb_is_full r = 1)
  /\ ~ (rb_is_empty r = 1 /\ rb_is_full r = 1)
  /\ Z.of_nat (length (contents r)) = rb_avail r.
Proof.
  intros Hr. pose proof (reachable_inv bk r Hr) as Hinv.
  pose proof (inv_avail_range r Hinv) as Ha.
  pose proof (inv_unused r Hinv) as Hu.
  assert (He : rb_is_empty r = 1 <-> rb_avail r = 0).
  { unfold rb_is_empty.
    destruct (Z.eqb_spec (r_in r) (r_out r)) as [E|NE]; split; intros H;
      try reflexivity; try discriminate.
    - unfold rb_avail. rewrite E, Z.sub_diag. reflexivity.
    - exfalso. apply NE.
      apply (u32_sub_zero _ _ (inv_in r Hinv) (inv_out r Hinv)). exact H. }
  unfold rb_size in *.
  split; [lia|]. split; [exact He|]. split; [rewrite He; lia|].
  split; [unfold rb_is_empty; destruct (_ =? _); auto|].
  split; [unfold rb_is_full; destruct (_ >? _); auto|].
  split.
  - intros [H1 H2]. apply He in H1. unfold rb_is_full in H2.
    rewrite Z.gtb_ltb in H2.
    destruct (Z.ltb_spec (r_mask r) (rb_avail r)) as [Hlt|Hge];
      [|discriminate].
    rewrite (inv_mask r Hinv) in Hlt.
    pose proof (u32_range (r_size r - 1)) as Hm. unfold is_u32 in Hm. lia.
  - rewrite (contents_length r Hinv). lia.
Qed.

Lemma occupancy_queries_witness :
  rb_avail (snd Scenario.r4) + rb_unused (snd Scenario.r4)
  = rb_size (snd Scenario.r4)
  /\ (rb_is_empty (snd Scenario.r4) = 1 <-> rb_avail (snd Scenario.r4) = 0)
  /\ (rb_is_empty (snd Scenario.r4) = 1
      <-> rb_unused (snd Scenario.r4) = rb_size (snd Scenario.r4))
  /\ (rb_is_empty (snd Scenario.r4) = 0 \/ rb_is_empty (snd Scenario.r4) = 1)
  /\ (rb_is_full (snd Scenario.r4) = 0 \/ rb_is_full (snd Scenario.r4) = 1)
  /\ ~ (rb_is_empty (snd Scenario.r4) = 1 /\ rb_is_full (snd Scenario.r4) = 1)
  /\ Z.of_nat (length (contents (snd Scenario.r4)))
     = rb_avail (snd Scenario.r4).
Proof.
  apply (occupancy_queries Scenario.bk8). exact scenario_reachable_r4.
Defined.

(** ** Transfers in two steps *)

Lemma rb_out_state r buf len :
  snd (fst (rb_out r buf len))
  = set_out r (u32 (r_out r + min len (rb_avail r))).
Proof. reflexivity. Qed.

(** Reading in two steps (as the consumer does for a header and then its
    payload) is reading once: when [n1 + n2] bytes are queued, [rb_out] of
    [n1] bytes followed by [rb_out] of [n2] bytes returns [n1] and [n2],
    leaves the struct that one [rb_out] of [n1 + n2] bytes leaves, and
    delivers the same bytes in the same order. *)
Theorem rb_out_split bk r buf1 buf2 buf n1 n2 :
  reachable bk r ->
  0 <= n1 -> 0 <= n2 -> n1 + n2 <= rb_avail r ->
  n1 <= Z.of_nat (length buf1) -> n2 <= Z.of_nat (length buf2) ->
  n1 + n2 <= Z.of_nat (length buf) ->
  fst (fst (rb_out r buf1 n1)) = n1
  /\ fst (fst (rb_out (snd (fst (rb_out r buf1 n1))) buf2 n2)) = n2
  /\ fst (fst (rb_out r buf (n1 + n2))) = n1 + n2
  /\ snd (fst (rb_out (snd (fst (rb_out r buf1 n1))) buf2 n2))
     = snd (fst (rb_out r buf (n1 + n2)))
  /\ firstn (Z.to_nat n1) (snd (rb_out r buf1 n1))
       ++ firstn (Z.to_nat n2)
            (snd (rb_out (snd (fst (rb_out r buf1 n1))) buf2 n2))
     = firstn (Z.to_nat (n1 + n2)) (snd (rb_out r buf (n1 + n2))).
Proof.
  intros Hr H1 H2 H12 Hb1 Hb2 Hb.
  pose proof (reachable_inv bk r Hr) as Hinv.
  pose proof (inv_avail_range r Hinv) as Ha.
  pose proof (inv_size_range r Hinv) as Hs.
  pose proof (contents_length r Hinv) as Hcl.
  assert (Hu1 : is_u32 n1) by (unfold is_u32, modulus in *; lia).
  assert (Hu2 : is_u32 n2) by (unfold is_u32, modulus in *; lia).
  assert (Hu : is_u32 (n1 + n2)) by (unfold is_u32, modulus in *; lia).
  destruct (rb_out_spec r buf1 n1 Hinv Hu1) as (E1 & Hi1 & Ha1 & Hc1).
  { rewrite min_l by lia. exact Hb1. }
  rewrite min_l in * by lia.
  set (r1 := snd (fst (rb_out r buf1 n1))) in *.
  destruct (rb_out_spec r1 buf2 n2 Hi1 Hu2) as (E2 & _).
  { rewrite min_l by lia. exact Hb2. }
  rewrite min_l in E2 by lia.
  destruct (rb_out_spec r buf (n1 + n2) Hinv Hu) as (E & _).
  { rewrite min_l by lia. exact Hb. }
  rewrite min_l in E by lia.
  split; [rewrite E1; reflexivity|].
  split; [rewrite E2; reflexivity|].
  split; [rewrite E; reflexivity|].
  split.
  - rewrite (rb_out_state r1), (rb_out_state r).
    unfold r1. rewrite (rb_out_state r).
    rewrite (min_l n1 (rb_avail r)), (min_l (n1 + n2) (rb_avail r)) by lia.
    assert (Ea : rb_avail (set_out r (u32 (r_out r + n1))) = rb_avail r - n1).
    { fold (rb_avail r) in Ha1. rewrite <- Ha1. unfold r1.
      rewrite (rb_out_state r), min_l by lia. reflexivity. }
    rewrite min_l by (rewrite Ea; lia).
    unfold set_out. proj_simpl. f_equal.
    unfold u32. rewrite Zplus_mod_idemp_l. f_equal. lia.
  - rewrite E1, E2, E. cbn [snd].
    pose proof (contents_length r1 Hi1) as Hcl1.
    rewrite (firstn_app_exact (firstn (Z.to_nat n1) (contents r)))
      by (rewrite length_firstn; lia).
    rewrite (firstn_app_exact (firstn (Z.to_nat n2) (contents r1)))
      by (rewrite length_firstn; lia).
    rewrite (firstn_app_exact (firstn (Z.to_nat (n1 + n2)) (contents r)))
      by (rewrite length_firstn; lia).
    rewrite Hc1.
    rewrite firstn_skipn_comm.
    replace (Z.to_nat (n1 + n2)) with (Z.to_nat n1 + Z.to_nat n2)%nat by lia.
    set (c := firstn (Z.to_nat n1 + Z.to_nat n2) (contents r)).
    replace (firstn (Z.to_nat n1) (contents r)) with (firstn (Z.to_nat n1) c).
    + apply firstn_skipn.
    + subst c. rewrite firstn_firstn. f_equal. lia.
Qed.

Lemma rb_out_split_witness :
  fst (fst (rb_out (snd Scenario.r4) (repeat x00 2) 2)) = 2
  /\ fst (fst (rb_out (snd (fst (rb_out (snd Scenario.r4) (repeat x00 2) 2)))
                 (repeat x00 3) 3)) = 3
  /\ fst (fst (rb_out (snd Scenario.r4) (repeat x00 5) (2 + 3))) = 2 + 3
  /\ snd (fst (rb_out (snd (fst (rb_out (snd Scenario.r4) (repeat x00 2) 2)))
                 (repeat x00 3) 3))
     = snd (fst (rb_out (snd Scenario.r4) (repeat x00 5) (2 + 3)))
  /\ firstn (Z.to_nat 2) (snd (rb_out (snd Scenario.r4) (repeat x00 2) 2))
       ++ firstn (Z.to_nat 3)
            (snd (rb_out (snd (fst (rb_out (snd Scenario.r4)
                                      (repeat x00 2) 2)))
                    (repeat x00 3) 3))
     = firstn (Z.to_nat (2 + 3))
         (snd (rb_out (snd Scenario.r4) (repeat x00 5) (2 + 3))).
Proof.
  apply (rb_out_split Scenario.bk8); try lia.
  - exact scenario_reachable_r4.
  - vm_compute. discriminate.
  - vm_compute. discriminate.
  - vm_compute. discriminate.
  - vm_compute. discriminate.
Defined.

(** The struct [rb_in] leaves, written out, on a ring of nonzero size. *)
Lemma rb_in_eq r buf len :
  rb_inv r -> 0 < r_size r -> is_u32 len ->
  let n := min len (rb_unused r) in
  let p := Z.land (r_in r) (r_mask r) in
  let l := Z.min n (r_size r - p) in
  rb_in r buf len
  = (n, mk_ringbuffer (u32 (r_in r + n)) (r_out r) (r_mask r) (r_size r)
          (r_esize r)
          (memcpy (memcpy (r_data r) p buf 0 l) 0 buf l (n - l))).
Proof.
  intros Hinv Hpos Hlen n p l.
  pose proof (inv_avail_range r Hinv) as Ha.
  pose proof (inv_size_range r Hinv) as Hs.
  pose proof (inv_unused r Hinv) as Hu.
  pose proof (inv_land_range r Hinv Hpos (r_in r)) as Hp. fold p in Hp.
  assert (Hn : 0 <= n <= r_size r - rb_avail r).
  { subst n. rewrite min_spec, Hu. unfold is_u32 in Hlen. lia. }
  unfold rb_in. cbv zeta. fold n. fold p.
  rewrite (min_spec n), (u32_id (r_size r - p))
    by (unfold is_u32, modulus in *; lia).
  fold l. rewrite (u32_id (n - l)) by (unfold is_u32, modulus in *; lia).
  reflexivity.
Qed.

(** The store after [rb_in], byte by byte, with natural-number indices. *)
Lemma rb_in_data_nth r buf len (j : nat) :
  rb_inv r -> 0 < r_size r -> is_u32 len ->
  min len (rb_unused r) <= Z.of_nat (length buf) ->
  let n := Z.to_nat (min len (rb_unused r)) in
  let p := Z.to_nat (Z.land (r_in r) (r_mask r)) in
  let l := Nat.min n (Z.to_nat (r_size r) - p) in
  nth_error (r_data (snd (rb_in r buf len))) j =
  if (j <? n - l)%nat then nth_error buf (l + j)
  else if ((p <=? j) && (j <? p + l))%nat then nth_error buf (j - p)
       else nth_error (r_data r) j.
Proof.
  intros Hinv Hpos Hlen Hbuf n p l.
  pose proof (inv_avail_range r Hinv) as Ha.
  pose proof (inv_unused r Hinv) as Hu.
  pose proof (inv_land_range r Hinv Hpos (r_in r)) as Hp.
  pose proof (inv_data r Hinv) as Hd.
  assert (Hn : 0 <= min len (rb_unused r) <= r_size r).
  { rewrite min_spec, Hu. unfold is_u32 in Hlen. lia. }
  rewrite (rb_in_eq r buf len Hinv Hpos Hlen). cbv zeta. proj_simpl.
  pose proof (copy_in_nth_error (r_data r) (r_size r)
                (Z.land (r_in r) (r_mask r)) (min len (rb_unused r)) buf j
                Hp Hn Hd Hbuf) as E.
  cbv zeta in E. rewrite E.
  set (nz := min len (rb_unused r)) in *.
  set (pz := Z.land (r_in r) (r_mask r)) in *.
  replace (Z.to_nat (nz - Z.min nz (r_size r - pz))) with (n - l)%nat
    by (subst n l p; lia).
  replace (Z.to_nat (Z.min nz (r_size r - pz))) with l by (subst n l p; lia).
  replace (Z.to_nat (pz + Z.min nz (r_size r - pz))) with (p + l)%nat
    by (subst n l p; lia).
  reflexivity.
Qed.

(** Two writes into a ring, the second where the first ended, against one
    write of the two blocks joined. *)
Lemma write_twice (d d1 d2 D S1 S2 : list byte) (s p p1 n1 n2 : nat) :
  (p < s)%nat -> (p1 < s)%nat -> (p1 = p + n1 \/ p1 + s = p + n1)%nat ->
  (n1 + n2 <= s)%nat -> length S1 = n1 ->
  (forall j, nth_error d1 j =
             if (j <? n1 - Nat.min n1 (s - p))%nat
             then nth_error S1 (Nat.min n1 (s - p) + j)
             else if ((p <=? j) && (j <? p + Nat.min n1 (s - p)))%nat
                  then nth_error S1 (j - p)
                  else nth_error d j) ->
  (forall j, nth_error d2 j =
             if (j <? n2 - Nat.min n2 (s - p1))%nat
             then nth_error S2 (Nat.min n2 (s - p1) + j)
             else if ((p1 <=? j) && (j <? p1 + Nat.min n2 (s - p1)))%nat
                  then nth_error S2 (j - p1)
                  else nth_error d1 j) ->
  (forall j, nth_error D j =
             if (j <? (n1 + n2) - Nat.min (n1 + n2) (s - p))%nat
             then nth_error (S1 ++ S2) (Nat.min (n1 + n2) (s - p) + j)
             else if ((p <=? j) && (j <? p + Nat.min (n1 + n2) (s - p)))%nat
                  then nth_error (S1 ++ S2) (j - p)
                  else nth_error d j) ->
  D = d2.
Proof.
  intros Hp Hp1 Hrel Hn HS1 Hd1 Hd2 HD.
  apply nth_error_ext. intros j.
  rewrite HD, Hd2, Hd1, !nth_error_app, HS1.
  destruct (Nat.le_ge_cases n1 (s - p)) as [Hl1|Hl1];
    [rewrite (Nat.min_l n1 (s - p)) by exact Hl1
    |rewrite (Nat.min_r n1 (s - p)) by exact Hl1];
    (destruct (Nat.le_ge_cases n2 (s - p1)) as [Hl2|Hl2];
     [rewrite (Nat.min_l n2 (s - p1)) by exact Hl2
     |rewrite (Nat.min_r n2 (s - p1)) by exact Hl2]);
    (destruct (Nat.le_ge_cases (n1 + n2) (s - p)) as [Hl|Hl];
     [rewrite (Nat.min_l (n1 + n2) (s - p)) by exact Hl
     |rewrite (Nat.min_r (n1 + n2) (s - p)) by exact Hl]);
    try lia;
    prune_nat_tests; close_index.
Qed.

Lemma ringbuffer_eq (a b : ringbuffer) :
  r_in a = r_in b -> r_out a = r_out b -> r_mask a = r_mask b ->
  r_size a = r_size b -> r_esize a = r_esize b -> r_data a = r_data b ->
  a = b.
Proof.
  destruct a, b. cbn. intros. subst. reflexivity.
Qed.

Lemma rb_in_in r buf len :
  r_in (snd (rb_in r buf len)) = u32 (r_in r + min len (rb_unused r)).
Proof. reflexivity. Qed.

(** Writing in two steps (as the producer does when it retries with the
    rest of a message) is writing once: when [S1] fits in the free space,
    [rb_in] of [S1] followed by [rb_in] of [len2] bytes of [S2] leaves the
    very struct, store included, that one [rb_in] of
    [length S1 + len2] bytes of [S1 ++ S2] leaves, and the returned counts
    add up. *)
Theorem rb_in_split bk r S1 S2 len2 :
  reachable bk r ->
  Z.of_nat (length S1) <= rb_unused r ->
  call_ok (snd (rb_in r S1 (Z.of_nat (length S1)))) (Write S2 len2) ->
  is_u32 (Z.of_nat (length S1) + len2) ->
  fst (rb_in r S1 (Z.of_nat (length S1))) = Z.of_nat (length S1)
  /\ rb_in r (S1 ++ S2) (Z.of_nat (length S1) + len2)
     = (Z.of_nat (length S1)
        + fst (rb_in (snd (rb_in r S1 (Z.of_nat (length S1)))) S2 len2),
        snd (rb_in (snd (rb_in r S1 (Z.of_nat (length S1)))) S2 len2)).
Proof.
  intros Hr HS1 [Hlen2 Hbuf2] Hlen.
  pose proof (reachable_inv bk r Hr) as Hinv.
  pose proof (inv_avail_range r Hinv) as Ha.
  pose proof (inv_size_range r Hinv) as Hs.
  pose proof (inv_unused r Hinv) as Hu.
  pose proof (inv_data r Hinv) as Hd.
  set (n1 := Z.of_nat (length S1)) in *.
  assert (Hn1 : is_u32 n1) by (unfold is_u32, modulus in *; lia).
  assert (Em1 : min n1 (rb_unused r) = n1) by (apply min_l; exact HS1).
  destruct (rb_in_spec r S1 n1 Hinv Hn1) as (_ & Hi1 & Ha1 & _).
  { rewrite Em1. subst n1. lia. }
  rewrite Em1 in Ha1.
  set (r1 := snd (rb_in r S1 n1)) in *.
  pose proof (inv_unused r1 Hi1) as Hu1.
  assert (Es1 : r_size r1 = r_size r) by reflexivity.
  assert (Ek1 : r_mask r1 = r_mask r) by reflexivity.
  assert (Ei1 : r_in r1 = u32 (r_in r + n1)).
  { unfold r1. rewrite rb_in_in, Em1. reflexivity. }
  rewrite Es1, Ha1 in Hu1.
  set (n2 := min len2 (rb_unused r1)) in *.
  assert (Hn2 : 0 <= n2 <= r_size r - rb_avail r - n1).
  { subst n2. rewrite min_spec, Hu1. unfold is_u32 in Hlen2. lia. }
  assert (Em : min (n1 + len2) (rb_unused r) = n1 + n2).
  { subst n2. rewrite !min_spec, Hu1, Hu. lia. }
  split; [exact Em1|].
  rewrite (surjective_pairing (rb_in r (S1 ++ S2) (n1 + len2))).
  f_equal; [exact Em|].
  destruct (Z.eq_dec (r_size r) 0) as [E0|Hne].
  - assert (En1 : n1 = 0) by lia. assert (En2 : n2 = 0) by lia.
    rewrite (rb_in_nothing r (S1 ++ S2) (n1 + len2) (inv_in r Hinv))
      by (rewrite Em; lia).
    rewrite (rb_in_nothing r1 S2 len2 (inv_in r1 Hi1)) by exact En2.
    cbn [snd]. unfold r1.
    rewrite (rb_in_nothing r S1 n1 (inv_in r Hinv)) by (rewrite Em1; lia).
    reflexivity.
  - assert (Hpos : 0 < r_size r) by lia.
    pose proof (inv_land_range r Hinv Hpos (r_in r)) as Hp.
    pose proof (inv_land_range r Hinv Hpos (u32 (r_in r + n1))) as Hp1.
    pose proof (inv_land_add r Hinv Hpos (r_in r) n1) as Eadd.
    assert (Hrel : Z.land (u32 (r_in r + n1)) (r_mask r)
                   = Z.land (r_in r) (r_mask r) + n1
                   \/ Z.land (u32 (r_in r + n1)) (r_mask r) + r_size r
                      = Z.land (r_in r) (r_mask r) + n1).
    { rewrite Eadd. apply mod_once; lia. }
    apply ringbuffer_eq; try reflexivity.
    + rewrite !rb_in_in. fold n2. rewrite Em, Ei1.
      unfold u32. rewrite Zplus_mod_idemp_l. f_equal. lia.
    + apply (write_twice (r_data r) (r_data r1) _ _ S1 S2
               (Z.to_nat (r_size r))
               (Z.to_nat (Z.land (r_in r) (r_mask r)))
               (Z.to_nat (Z.land (u32 (r_in r + n1)) (r_mask r)))
               (length S1) (Z.to_nat n2)); try lia.
      * intros j.
        pose proof (rb_in_data_nth r S1 n1 j Hinv Hpos Hn1) as E.
        cbv zeta in E. rewrite Em1 in E. unfold n1 in E at 2 3 4 5 6.
        rewrite !Nat2Z.id in E. apply E. subst n1. lia.
      * intros j.
        pose proof (rb_in_data_nth r1 S2 len2 j Hi1 ltac:(lia) Hlen2 Hbuf2)
          as E.
        cbv zeta in E. fold n2 in E. rewrite Es1, Ek1, Ei1 in E. exact E.
      * intros j.
        pose proof (rb_in_data_nth r (S1 ++ S2) (n1 + len2) j Hinv Hpos Hlen)
          as E.
        cbv zeta in E. rewrite Em in E.
        replace (Z.to_nat (n1 + n2)) with (length S1 + Z.to_nat n2)%nat in E
          by (subst n1; lia).
        apply E. rewrite length_app. subst n1. lia.
Qed.

Lemma rb_in_split_witness :
  fst (rb_in (snd (fst Scenario.rs)) [x0a; x0b; x0c]
         (Z.of_nat (length [x0a; x0b; x0c])))
  = Z.of_nat (length [x0a; x0b; x0c])
  /\ rb_in (snd (fst Scenario.rs)) ([x0a; x0b; x0c] ++ [x0d; x0e; x0f; x10])
           (Z.of_nat (length [x0a; x0b; x0c]) + 4)
     = (Z.of_nat (length [x0a; x0b; x0c])
        + fst (rb_in (snd (rb_in (snd (fst Scenario.rs)) [x0a; x0b; x0c]
                            (Z.of_nat (length [x0a; x0b; x0c]))))
                 [x0d; x0e; x0f; x10] 4),
        snd (rb_in (snd (rb_in (snd (fst Scenario.rs)) [x0a; x0b; x0c]
                           (Z.of_nat (length [x0a; x0b; x0c]))))
                [x0d; x0e; x0f; x10] 4)).
Proof.
  apply (rb_in_split Scenario.bk8).
  - exact scenario_reachable_rs.
  - vm_compute. discriminate.
  - split; [u32_literal | vm_compute; discriminate].
  - cbn [length]. u32_literal.
Defined.

(** The two writes of the witness go round the end of the store, and the
    second one is cut to the three bytes that are free. *)
Example split_write_run :
  rb_in (snd (fst Scenario.rs)) ([x0a; x0b; x0c] ++ [x0d; x0e; x0f; x10]) 7
  = (6, mk_ringbuffer 12 4 7 8 1 [x0c; x0d; x0e; x0f; x05; x06; x0a; x0b]).
Proof. reflexivity. Qed.

(** ** [check_sum] *)

Lemma byte_val_range b : 0 <= byte_val b <= 255.
Proof.
  unfold byte_val. pose proof (Byte.to_N_bounded b). lia.
Qed.

Lemma byte_val_inj a b : byte_val a = byte_val b -> a = b.
Proof.
  unfold byte_val. intros H. apply N2Z.inj in H.
  pose proof (Byte.of_to_N a) as Ha. pose proof (Byte.of_to_N b) as Hb.
  rewrite H in Ha. rewrite Ha in Hb. injection Hb as ->. reflexivity.
Qed.

Lemma byte_total_app l1 l2 :
  byte_total (l1 ++ l2) = byte_total l1 + byte_total l2.
Proof.
  unfold byte_total. induction l1 as [|x l1 IH]; cbn [app fold_right].
  - reflexivity.
  - rewrite IH. lia.
Qed.


(** The loop of [check_sum], started with [sum]. *)
Lemma check_sum_loop l :
  forall sum, is_u32 sum ->
    fold_left (fun sum x => u32 (sum + byte_val x)) l sum
    = u32 (sum + byte_total l).
Proof.
  induction l as [|x l IH]; intros sum Hsum; cbn [fold_left].
  - unfold byte_total. cbn [fold_right]. rewrite Z.add_0_r.
    symmetry. apply u32_id. exact Hsum.
  - rewrite IH by apply u32_range.
    unfold byte_total. cbn [fold_right]. fold (byte_total l).
    unfold u32. rewrite Zplus_mod_idemp_l. f_equal. lia.
Qed.

Lemma check_sum_whole l :
  check_sum (Some l) (Z.of_nat (length l)) = u32 (byte_total l).
Proof.
  unfold check_sum. destruct (Z.eqb_spec (Z.of_nat (length l)) 0) as [E|NE].
  - destruct l; [reflexivity|cbn [length] in E; lia].
  - rewrite Nat2Z.id, firstn_all.
    rewrite check_sum_loop by (unfold is_u32, modulus; lia).
    reflexivity.
Qed.



Example check_sum_run : check_sum (Some [xff; xff; x03; x09]) 3 = 513.
Proof. reflexivity. Qed.

(** [check_sum] tells apart two blocks that differ in one byte: their
    check sums differ ([size], the length of the blocks, is within the
    range of the [int] loop counter). *)
Theorem check_sum_detects l1 l2 x y :
  x <> y -> Z.of_nat (length (l1 ++ x :: l2)) < 2 ^ 31 ->
  check_sum (Some (l1 ++ x :: l2)) (Z.of_nat (length (l1 ++ x :: l2)))
  <> check_sum (Some (l1 ++ y :: l2)) (Z.of_nat (length (l1 ++ y :: l2))).
Proof.
  intros Hxy _. rewrite !check_sum_whole, !byte_total_app.
  unfold byte_total at 2 4. cbn [fold_right]. fold (byte_total l2).
  intros E.
  assert (Hd : (byte_val x - byte_val y) mod modulus = 0).
  { unfold u32 in E.
    replace (byte_val x - byte_val y)
      with ((byte_total l1 + (byte_val x + byte_total l2))
            - (byte_total l1 + (byte_val y + byte_total l2))) by lia.
    rewrite Zminus_mod, E, Z.sub_diag. reflexivity. }
  pose proof (byte_val_range x) as Hx. pose proof (byte_val_range y) as Hy.
  assert (Hne : byte_val x <> byte_val y)
    by (intros H; apply Hxy, byte_val_inj, H).
  unfold modulus in Hd.
  destruct (Z.lt_ge_cases (byte_val x) (byte_val y)) as [Hlt|Hge].
  - replace (byte_val x - byte_val y)
      with ((byte_val x - byte_val y + 2 ^ 32) + (-1) * 2 ^ 32) in Hd by lia.
    rewrite Z.mod_add, Z.mod_small in Hd by lia. lia.
  - rewrite Z.mod_small in Hd by lia. lia.
Qed.

Lemma check_sum_detects_witness :
  check_sum (Some ([x55; xaa] ++ x01 :: [x07]))
            (Z.of_nat (length ([x55; xaa] ++ x01 :: [x07])))
  <> check_sum (Some ([x55; xaa] ++ x02 :: [x07]))
               (Z.of_nat (length ([x55; xaa] ++ x02 :: [x07]))).
Proof.
  apply (check_sum_detects [x55; xaa] [x07] x01 x02).
  - discriminate.
  - cbn. lia.
Defined.

(** [check_sum] does not see the order of the bytes: two blocks that hold
    the same bytes in another order have the same check sum. *)
Theorem check_sum_order_blind a b :
  Permutation a b -> Z.of_nat (length a) < 2 ^ 31 ->
  check_sum (Some a) (Z.of_nat (length a))
  = check_sum (Some b) (Z.of_nat (length b)).
Proof.
  intros Hp _. rewrite !check_sum_whole. f_equal.
  unfold byte_total. induction Hp; cbn [fold_right]; lia.
Qed.

Lemma check_sum_order_blind_witness :
  check_sum (Some [x01; x02; x03]) (Z.of_nat (length [x01; x02; x03]))
  = check_sum (Some [x03; x01; x02]) (Z.of_nat (length [x03; x01; x02])).
Proof.
  apply check_sum_order_blind.
  - exact (Permutation_app_comm [x01; x02] [x03]).
  - cbn. lia.
Defined.

(** ** The consumer's search for the marker *)

Lemma byte_at_nth_error buf i :
  0 <= i < Z.of_nat (length buf) ->
  nth_error buf (Z.to_nat i) = Some (byte_at buf i).
Proof.
  intros Hi. unfold byte_at. apply nth_error_nth'. lia.
Qed.

Lemma sync_test buf i :
  0 <= i -> i + 1 < Z.of_nat (length buf) ->
  Byte.eqb (byte_at buf i) x55 && Byte.eqb (byte_at buf (i + 1)) xaa = true
  <-> sync_at buf (Z.to_nat i).
Proof.
  intros Hi Hlen. unfold sync_at.
  replace (S (Z.to_nat i)) with (Z.to_nat (i + 1)) by lia.
  rewrite !byte_at_nth_error by lia.
  rewrite andb_true_iff. split.
  - intros [H1 H2]. apply Byte.byte_dec_bl in H1, H2.
    rewrite H1, H2. split; reflexivity.
  - intros [H1 H2]. injection H1 as ->. injection H2 as ->.
    split; reflexivity.
Qed.

(** The loop, entered at [i] with no marker before [i] and enough fuel to
    reach [avail_bytes - 1]. *)
Lemma sync_scan_spec fuel :
  forall buf i avail_bytes,
    1 <= avail_bytes <= Z.of_nat (length buf) -> avail_bytes < modulus ->
    0 <= i <= avail_bytes - 1 ->
    avail_bytes - 1 - i <= Z.of_nat fuel ->
    (forall j, (Z.of_nat j < i) -> ~ sync_at buf j) ->
    i <= sync_scan fuel buf i avail_bytes <= avail_bytes - 1
    /\ (forall j, Z.of_nat j < sync_scan fuel buf i avail_bytes ->
                  ~ sync_at buf j)
    /\ (sync_scan fuel buf i avail_bytes < avail_bytes - 1 ->
        sync_at buf (Z.to_nat (sync_scan fuel buf i avail_bytes))).
Proof.
  induction fuel as [|fuel IH]; intros buf i avail Hav Hmod Hi Hfuel Hno;
    cbn [sync_scan].
  - assert (i = avail - 1) by lia. subst i.
    split; [lia|]. split; [exact Hno|lia].
  - rewrite (u32_id (avail - 1)) by (unfold is_u32; lia).
    destruct (Z.ltb_spec i (avail - 1)) as [Hlt|Hge].
    + destruct (Byte.eqb (byte_at buf i) x55
                && Byte.eqb (byte_at buf (i + 1)) xaa) eqn:Et.
      * split; [lia|]. split; [exact Hno|].
        intros _. apply sync_test; [lia|lia|exact Et].
      * assert (Hni : ~ sync_at buf (Z.to_nat i)).
        { intros Hs. apply sync_test in Hs; [|lia|lia].
          rewrite Hs in Et. discriminate. }
        destruct (IH buf (i + 1) avail Hav Hmod ltac:(lia) ltac:(lia))
          as (Hr & Hn & Hf).
        { intros j Hj. destruct (Z.eq_dec (Z.of_nat j) i) as [E|NE].
          - subst i. rewrite Nat2Z.id in Hni. exact Hni.
          - apply Hno. lia. }
        split; [lia|]. split; [exact Hn|exact Hf].
    + split; [lia|]. split; [exact Hno|lia].
Qed.


(** The search loop of the consumer over the first [avail_bytes] bytes of
    [sync_buf]: it stops at the first index where the marker [55 aa]
    starts, and at [avail_bytes - 1] when the marker starts nowhere before
    that index. *)
Theorem find_sync_spec sync_buf avail_bytes :
  1 <= avail_bytes <= Z.of_nat (length sync_buf) -> avail_bytes <= 2 ^ 31 ->
  0 <= find_sync sync_buf avail_bytes <= avail_bytes - 1
  /\ (forall j, Z.of_nat j < find_sync sync_buf avail_bytes ->
                ~ sync_at sync_buf j)
  /\ (find_sync sync_buf avail_bytes < avail_bytes - 1 ->
      sync_at sync_buf (Z.to_nat (find_sync sync_buf avail_bytes))).
Proof.
  intros Hav Hint. unfold find_sync.
  assert (Hmod : avail_bytes < modulus) by (unfold modulus; lia).
  apply sync_scan_spec; try lia.
  rewrite u32_id by (unfold is_u32; lia). lia.
Qed.

Lemma find_sync_spec_witness :
  0 <= find_sync [x01; x55; x02; x55; xaa; x09; x55; xaa] 8 <= 8 - 1
  /\ (forall j,
         Z.of_nat j < find_sync [x01; x55; x02; x55; xaa; x09; x55; xaa] 8 ->
         ~ sync_at [x01; x55; x02; x55; xaa; x09; x55; xaa] j)
  /\ (find_sync [x01; x55; x02; x55; xaa; x09; x55; xaa] 8 < 8 - 1 ->
      sync_at [x01; x55; x02; x55; xaa; x09; x55; xaa]
              (Z.to_nat
                 (find_sync [x01; x55; x02; x55; xaa; x09; x55; xaa] 8))).
Proof. apply find_sync_spec; cbn [length]; lia. Defined.

Example find_sync_run :
  find_sync [x01; x55; x02; x55; xaa; x09; x55; xaa] 8 = 3
  /\ find_sync [x01; x02; x03; x55] 4 = 3.
Proof. split; reflexivity. Qed.






(** The resynchronisation of the witness: the queue [05 06 01 55 55 aa 09
    0a] loses its first four bytes.  And a queue that ends with the first
    half of a marker loses that byte. *)
Example resync_run :
  contents (snd Scenario.rm) = [x05; x06; x01; x55; x55; xaa; x09; x0a]
  /\ fst (fst (resync (snd Scenario.rm) (repeat x00 8))) = true
  /\ contents (snd (fst (resync (snd Scenario.rm) (repeat x00 8))))
     = [x55; xaa; x09; x0a]
  /\ resync (snd (rb_in Scenario.r0 [x01; x02; x55] 3)) (repeat x00 8)
     = (false, mk_ringbuffer 3 3 7 8 1 [x01; x02; x55; x00; x00; x00; x00; x00],
        [x01; x02; x55; x00; x00; x00; x00; x00]).
Proof. repeat split. Qed.

(** ** [rb_deinit] *)

Lemma rb_in_data_length r buf len :
  rb_inv r -> is_u32 len ->
  min len (rb_unused r) <= Z.of_nat (length buf) ->
  length (r_data (snd (rb_in r buf len))) = length (r_data r).
Proof.
  intros Hinv Hlen Hbuf.
  pose proof (inv_avail_range r Hinv) as Ha.
  pose proof (inv_size_range r Hinv) as Hs.
  pose proof (inv_unused r Hinv) as Hu.
  pose proof (inv_data r Hinv) as Hd.
  assert (Hn : 0 <= min len (rb_unused r) <= r_size r - rb_avail r).
  { rewrite min_spec, Hu. unfold is_u32 in Hlen. lia. }
  destruct (Z.eq_dec (r_size r) 0) as [E0|Hne].
  - rewrite (rb_in_nothing r buf len (inv_in r Hinv)) by lia. reflexivity.
  - assert (Hpos : 0 < r_size r) by lia.
    pose proof (inv_land_range r Hinv Hpos (r_in r)) as Hp.
    rewrite (rb_in_eq r buf len Hinv Hpos Hlen). cbv zeta. proj_simpl.
    rewrite !memcpy_length; rewrite ?memcpy_length; try lia.
Qed.

(** What the static build keeps of the struct after initialisation. *)
Lemma static_shape L r :
  reachable (static_backing L) r ->
  Z.of_nat (length (r_data r)) = L
  /\ is_u32 (r_esize r) /\ r_esize r <> 0
  /\ r_size r = u32 (L / r_esize r)
  /\ Z.land (r_size r) (u32 (r_size r - 1)) = 0
  /\ r_mask r = u32 (r_size r - 1).
Proof.
  intros Hr. remember (static_backing L) as bk eqn:Ebk.
  induction Hr as [r0 len esize r Hok Hlen Hes Hinit | r c Hr IH Hc];
    subst bk.
  - unfold rb_init in Hinit.
    destruct ((len =? 0) || (esize =? 0)) eqn:Hz; [discriminate|].
    apply orb_false_elim in Hz. destruct Hz as [_ Hez].
    apply Z.eqb_neq in Hez. proj_simpl.
    destruct (Z.eqb_spec (Z.land (u32 (L / esize))
                                 (u32 (u32 (L / esize) - 1))) 0) as [E|NE];
      cbn [negb] in Hinit; [|discriminate].
    injection Hinit as <-. proj_simpl. cbn [struct_ok] in Hok.
    repeat split; assumption || apply Hes.
  - pose proof (reachable_inv _ r Hr) as Hinv.
    destruct c as [buf len|buf len|buf len]; cbn [exec call_ok] in *.
    + destruct Hc as [Hlen Hbuf].
      rewrite (rb_in_data_length r buf len Hinv Hlen Hbuf). exact IH.
    + exact IH.
    + exact IH.
Qed.

(** In the static build [rb_deinit] is a reset.  From every reachable
    state it leaves the struct that [rb_init], called again on it with the
    same element size, would leave: a reachable state, empty, with the whole
    capacity free; and a second [rb_deinit] changes nothing. *)
Theorem rb_deinit_static L r :
  reachable (static_backing L) r ->
  exists r1,
    rb_deinit (static_backing L) (Some r) = Some r1
    /\ rb_init (static_backing L) (Some r) 1 (r_esize r) = (0, Some r1)
    /\ reachable (static_backing L) r1
    /\ rb_is_empty r1 = 1 /\ rb_avail r1 = 0
    /\ rb_size r1 = rb_size r /\ rb_unused r1 = rb_size r
    /\ r_data r1 = r_data r
    /\ rb_deinit (static_backing L) (Some r1) = Some r1.
Proof.
  intros Hr. destruct (static_shape L r Hr) as (Hd & Hes & Hez & Hsz & Hl & Hm).
  pose proof (reachable_inv _ r Hr) as Hinv.
  pose proof (inv_size_range r Hinv) as Hs.
  exists (set_in (set_out r 0) 0).
  assert (Einit : rb_init (static_backing L) (Some r) 1 (r_esize r)
                  = (0, Some (set_in (set_out r 0) 0))).
  { unfold rb_init.
    assert (E : (1 =? 0) || (r_esize r =? 0) = false).
    { apply orb_false_intro; apply Z.eqb_neq; [lia|exact Hez]. }
    rewrite E. proj_simpl. rewrite <- Hsz, Hl. cbn [negb Z.eqb].
    rewrite <- Hm. destruct r; reflexivity. }
  split; [reflexivity|]. split; [exact Einit|]. split.
  - apply (reach_init (static_backing L) r 1 (r_esize r));
      [exact Hd | u32_literal | exact Hes | exact Einit].
  - split; [reflexivity|]. split; [reflexivity|]. split; [reflexivity|].
    split; [|split; reflexivity].
    unfold rb_unused, rb_size. proj_simpl.
    rewrite Z.sub_diag. change (u32 0) with 0. rewrite Z.sub_0_r.
    apply u32_id. unfold is_u32, modulus in *. lia.
Qed.

Lemma rb_deinit_static_witness :
  exists r1,
    rb_deinit Scenario.bk8 (Some (snd Scenario.r4)) = Some r1
    /\ rb_init Scenario.bk8 (Some (snd Scenario.r4)) 1
               (r_esize (snd Scenario.r4)) = (0, Some r1)
    /\ reachable Scenario.bk8 r1
    /\ rb_is_empty r1 = 1 /\ rb_avail r1 = 0
    /\ rb_size r1 = rb_size (snd Scenario.r4)
    /\ rb_unused r1 = rb_size (snd Scenario.r4)
    /\ r_data r1 = r_data (snd Scenario.r4)
    /\ rb_deinit Scenario.bk8 (Some r1) = Some r1.
Proof. apply rb_deinit_static. exact scenario_reachable_r4. Defined.

(** In the dynamic build [rb_deinit] gives the store back and keeps the
    capacity: from every reachable state it leaves a struct with no store,
    both cursors at 0, and [rb_size] and [rb_unused] still equal to the old
    capacity; a second [rb_deinit] changes nothing. *)
Theorem rb_deinit_dynamic malloc_ok fresh r :
  reachable (dynamic_malloc malloc_ok fresh) r ->
  exists r1,
    rb_deinit (dynamic_malloc malloc_ok fresh) (Some r) = Some r1
    /\ r_data r1 = []
    /\ rb_is_empty r1 = 1
    /\ r_in r1 = 0 /\ r_out r1 = 0
    /\ rb_size r1 = rb_size r /\ rb_unused r1 = rb_size r
    /\ rb_deinit (dynamic_malloc malloc_ok fresh) (Some r1) = Some r1.
Proof.
  intros Hr. pose proof (reachable_inv _ r Hr) as Hinv.
  pose proof (inv_size_range r Hinv) as Hs.
  exists (set_data (set_in (set_out r 0) 0) []).
  assert (Eu : rb_unused (set_data (set_in (set_out r 0) 0) []) = rb_size r).
  { unfold rb_unused, rb_size. proj_simpl.
    rewrite Z.sub_diag. change (u32 0) with 0. rewrite Z.sub_0_r.
    apply u32_id. unfold is_u32, modulus in *. lia. }
  split; [reflexivity|]. split; [reflexivity|]. split; [reflexivity|].
  split; [reflexivity|]. split; [reflexivity|]. split; [reflexivity|].
  split; [exact Eu|reflexivity].
Qed.

Lemma rb_deinit_dynamic_witness :
  exists r1,
    rb_deinit Dynamic.bk (Some (mk_ringbuffer 0 0 127 128 4 (repeat x00 128)))
    = Some r1
    /\ r_data r1 = []
    /\ rb_is_empty r1 = 1
    /\ r_in r1 = 0 /\ r_out r1 = 0
    /\ rb_size r1 = rb_size (mk_ringbuffer 0 0 127 128 4 (repeat x00 128))
    /\ rb_unused r1 = rb_size (mk_ringbuffer 0 0 127 128 4 (repeat x00 128))
    /\ rb_deinit Dynamic.bk (Some r1) = Some r1.
Proof.
  apply (rb_deinit_dynamic (fun _ => true) (fun _ => x00)).
  apply (reach_init Dynamic.bk Dynamic.blank 25 4);
    [exact I | u32_literal | u32_literal | reflexivity].
Defined.

(** ** Physical offsets *)

(** The masking step: in every reachable state of a buffer of nonzero
    capacity, [c & r->mask] is [c] modulo the capacity, an offset inside
    the store; and a cursor advanced by [n] with [uint32_t] wrap-around
    lands [n] places further round the ring. *)
Theorem physical_offset bk r c n :
  reachable bk r -> 0 < rb_size r ->
  Z.land c (r_mask r) = c mod rb_size r
  /\ 0 <= Z.land c (r_mask r) < rb_size r
  /\ Z.land c (r_mask r) < Z.of_nat (length (r_data r))
  /\ Z.land (u32 (c + n)) (r_mask r)
     = (Z.land c (r_mask r) + n) mod rb_size r.
Proof.
  intros Hr Hpos. pose proof (reachable_inv bk r Hr) as Hinv.
  unfold rb_size in *.
  pose proof (inv_land_range r Hinv Hpos c) as Hrange.
  pose proof (inv_data r Hinv) as Hd.
  split; [apply (inv_land r Hinv Hpos)|].
  split; [exact Hrange|]. split; [lia|].
  apply (inv_land_add r Hinv Hpos).
Qed.

Lemma physical_offset_witness :
  Z.land 4294967294 (r_mask (snd Scenario.r4))
  = 4294967294 mod rb_size (snd Scenario.r4)
  /\ 0 <= Z.land 4294967294 (r_mask (snd Scenario.r4))
     < rb_size (snd Scenario.r4)
  /\ Z.land 4294967294 (r_mask (snd Scenario.r4))
     < Z.of_nat (length (r_data (snd Scenario.r4)))
  /\ Z.land (u32 (4294967294 + 5)) (r_mask (snd Scenario.r4))
     = (Z.land 4294967294 (r_mask (snd Scenario.r4)) + 5)
       mod rb_size (snd Scenario.r4).
Proof.
  apply (physical_offset Scenario.bk8).
  - exact scenario_reachable_r4.
  - vm_compute. reflexivity.
Defined.
